(** * The map-reduce document summariser of [pdf-summarizer.py]

    A shallow embedding of the class [PDFSummarizer]: the Segmenter
    ([detect_section_boundaries]), the Chunker ([create_semantic_chunks]),
    the Chunk Summarizer ([summarize_chunk]), the parallel map stage and the
    Reducer ([summarize_summaries]) of [summarize_pdf], followed by the
    properties of the pipeline.

    Conventions.
    - A Python [str] is a [list ascii]: texts over 8-bit characters (the
      Latin-1 range of Unicode); [len] is [length], [s + t] is [s ++ t] and
      the slice [s[a:b]] is [slice a b s].
    - Offsets and lengths are [nat]; the configurable sizes are [Z], as a
      Python [int] may be negative.
    - A call that may raise returns an [outcome]. *)

From Stdlib Require Import ZArith Ascii String List Sorted Permutation Lia.
From Stdlib Require Import DecimalString.
From stdpp Require Import base option list sorting gmap strings.

Open Scope Z_scope.
Open Scope nat_scope.

(** ** Python strings *)

Abbreviation str := (list ascii).

(** A string literal of the source. *)
Definition py (s : string) : str := list_ascii_of_string s.

Definition nl : ascii := ascii_of_nat 10.

(** The paragraph separator ["\n\n"]. *)
Definition sep : str := [nl; nl].

(** [len(s)] as a Python integer. *)
Definition len (s : str) : Z := Z.of_nat (length s).

(** [s[a:b]] for offsets [0 <= a], [0 <= b]: out-of-range offsets are
    clamped to the end of the string, and the slice is empty when [b <= a]. *)
Definition slice (a b : nat) (s : str) : str := take (b - a) (drop a s).

(** [s[a:]]. *)
Definition slice_from (a : nat) (s : str) : str := drop a s.

(** The truth value of a string: [if s:] holds unless [s] is empty. *)
Definition truthy (s : str) : bool :=
  match s with [] => false | _ :: _ => true end.

(** [s.split("\n\n")]: the pieces between the successive, non-overlapping
    occurrences of the separator, scanning from the left.  The result is never
    the empty list. *)
Fixpoint split_sep (s : str) : list str :=
  match s with
  | [] => [[]]
  | c :: r =>
      match r with
      | c' :: r' =>
          if (Ascii.eqb c nl && Ascii.eqb c' nl)%bool then [] :: split_sep r'
          else match split_sep r with
               | p :: ps => (c :: p) :: ps
               | [] => [[c]]
               end
      | [] => [[c]]
      end
  end.

(** ** Regular expressions of the module [re]

    The five header patterns only use character classes, concatenation,
    alternation, greedy repetition and the anchor [$].  [rmatch r s] lists,
    in the order in which the backtracking matcher of [re] tries them, the
    remainders of [s] after a match of [r] at the start of [s]; the first
    one is the match that [re] reports. *)

Inductive regex : Type :=
  | RChar (p : ascii -> bool)
  | REps
  | REnd
  | RSeq (r1 r2 : regex)
  | RAlt (r1 r2 : regex)
  | RStar (r : regex).

Definition RPlus (r : regex) : regex := RSeq r (RStar r).
Definition ROpt (r : regex) : regex := RAlt r REps.

Fixpoint RSeqs (rs : list regex) : regex :=
  match rs with
  | [] => REps
  | [r] => r
  | r :: rs' => RSeq r (RSeqs rs')
  end.

Definition RLit (s : string) : regex :=
  RSeqs (map (fun c => RChar (Ascii.eqb c)) (list_ascii_of_string s)).

Definition code (c : ascii) : nat := nat_of_ascii c.

Definition in_range (lo hi : nat) (c : ascii) : bool :=
  ((lo <=? code c) && (code c <=? hi))%bool.

Definition is_upper : ascii -> bool := in_range 65 90.
Definition is_lower : ascii -> bool := in_range 97 122.

(** [\d]: the decimal digits; below 256 these are [0-9]. *)
Definition is_digit : ascii -> bool := in_range 48 57.

(** [\s]: Unicode white space; below 256 these are the codes 9-13, 28-32,
    133 and 160. *)
Definition is_space (c : ascii) : bool :=
  (in_range 9 13 c || in_range 28 32 c || (code c =? 133) || (code c =? 160))%bool.

(** [\w]: alphanumeric characters and the underscore; below 256 the
    alphanumeric characters are the ASCII letters and digits, the Latin-1
    letters, and the superscript digits and fractions. *)
Definition is_word (c : ascii) : bool :=
  (is_digit c || is_upper c || is_lower c || (code c =? 95)
   || (code c =? 170) || (code c =? 178) || (code c =? 179) || (code c =? 181)
   || (code c =? 185) || (code c =? 186) || in_range 188 190 c
   || in_range 192 214 c || in_range 216 246 c || in_range 248 255 c)%bool.

Definition one_of (s : string) (c : ascii) : bool :=
  existsb (Ascii.eqb c) (list_ascii_of_string s).

Fixpoint rmatch (r : regex) (s : str) : list str :=
  match r with
  | RChar p =>
      match s with
      | c :: s' => if p c then [s'] else []
      | [] => []
      end
  | REps => [s]
  | REnd =>
      match s with
      | [] => [s]
      | [c] => if Ascii.eqb c nl then [s] else []
      | _ => []
      end
  | RSeq r1 r2 => concat (map (rmatch r2) (rmatch r1 s))
  | RAlt r1 r2 => rmatch r1 s ++ rmatch r2 s
  | RStar r' =>
      (fix star (n : nat) (s : str) {struct n} : list str :=
         match n with
         | O => [s]
         | S n' =>
             concat (map (fun s' => if length s' <? length s
                                    then star n' s' else [])
                         (rmatch r' s)) ++ [s]
         end) (length s) s
  end.

(** The start offsets of [re.finditer(r, text)]: the matches are found from
    left to right and do not overlap; the search resumes where the previous
    match ended.  [pos] is the offset of [s] in the text and [skip] the number
    of characters of [s] that belong to the previous match. *)
Fixpoint finditer_from (r : regex) (pos skip : nat) (s : str) : list nat :=
  match skip with
  | S k =>
      match s with
      | [] => []
      | _ :: s' => finditer_from r (S pos) k s'
      end
  | O =>
      match rmatch r s with
      | rest :: _ =>
          pos :: match s with
                 | [] => []
                 | _ :: s' =>
                     finditer_from r (S pos) (length s - length rest - 1) s'
                 end
      | [] =>
          match s with
          | [] => []
          | _ :: s' => finditer_from r (S pos) 0 s'
          end
      end
  end.

Definition finditer_starts (r : regex) (text : str) : list nat :=
  finditer_from r 0 0 text.

(** ** The Segmenter *)

Definition ws : regex := RChar is_space.
Definition newline : regex := RChar (Ascii.eqb nl).
Definition roman : regex := RChar (one_of "IVXLCDM").
Definition heading_word : regex :=
  RSeq (RChar is_upper)
       (RPlus (RChar (fun c => (is_lower c || is_upper c || is_space c)%bool))).

(** The header patterns, in the order of the source. *)
Definition patterns : list regex :=
  [ (* \n\s*(?:SECTION|Section)\s+\d+[.:]\s+\w+ *)
    RSeqs [newline; RStar ws; RAlt (RLit "SECTION") (RLit "Section");
           RPlus ws; RPlus (RChar is_digit); RChar (one_of ".:");
           RPlus ws; RPlus (RChar is_word)];
    (* \n\s*\d+(?:\.\d+)*\s+[A-Z][a-zA-Z\s]+ *)
    RSeqs [newline; RStar ws; RPlus (RChar is_digit);
           RStar (RSeq (RChar (one_of ".")) (RPlus (RChar is_digit)));
           RPlus ws; heading_word];
    (* \n\s*[IVXLCDM]+\.\s+[A-Z][a-zA-Z\s]+ *)
    RSeqs [newline; RStar ws; RPlus roman; RChar (one_of ".");
           RPlus ws; heading_word];
    (* \n\s*[A-Z][A-Z\s]{2,}(?:\s*\([^)]+\))?\s*$ *)
    RSeqs [newline; RStar ws; RChar is_upper;
           RChar (fun c => (is_upper c || is_space c)%bool);
           RChar (fun c => (is_upper c || is_space c)%bool);
           RStar (RChar (fun c => (is_upper c || is_space c)%bool));
           ROpt (RSeqs [RStar ws; RChar (one_of "(");
                        RPlus (RChar (fun c => negb (one_of ")" c)));
                        RChar (one_of ")")]);
           RStar ws; REnd];
    (* \n\s*(?:ARTICLE|Article)\s+[IVXLCDM]+[.:]\s+\w+ *)
    RSeqs [newline; RStar ws; RAlt (RLit "ARTICLE") (RLit "Article");
           RPlus ws; RPlus roman; RChar (one_of ".:");
           RPlus ws; RPlus (RChar is_word)] ].

(** The offsets appended to [boundaries] by the two nested loops. *)
Definition header_offsets (text : str) : list nat :=
  concat (map (fun pattern => finditer_starts pattern text) patterns).

(** [sorted(set(boundaries))]. *)
Definition sorted_set (boundaries : list nat) : list nat :=
  merge_sort le (elements (list_to_set boundaries : gset nat)).

Definition detect_section_boundaries (text : str) : list nat :=
  sorted_set (0 :: header_offsets text).

(** ** Exceptions *)

(** An exception [e], an instance of [Exception], with the text [str(e)]
    that an f-string prints for it. *)
Record exn : Type := Exception { exn_str : str }.

(** The outcome of a call: it returns a value or raises an exception. *)
Inductive outcome (A : Type) : Type :=
  | Returned (a : A)
  | Raised (e : exn).
Arguments Returned {A} a.
Arguments Raised {A} e.

#[global] Instance outcome_ret : MRet outcome := fun A a => Returned a.
#[global] Instance outcome_bind : MBind outcome := fun A B k m =>
  match m with
  | Returned a => k a
  | Raised e => Raised e
  end.

(** [try: body / except Exception as e: handler e]. *)
Definition try_except {A} (body : outcome A) (handler : exn -> outcome A)
  : outcome A :=
  match body with
  | Returned a => Returned a
  | Raised e => handler e
  end.

(** ** The summariser object and the metadata mapping *)

Record PDFSummarizer : Type := {
  llm_api : str -> outcome str;
  chunk_size : Z;
  overlap : Z;
  max_workers : Z
}.

(** [PDFSummarizer(llm_api_wrapper)] with the default arguments. *)
Definition new_summarizer (llm_api_wrapper : str -> outcome str) : PDFSummarizer :=
  {| llm_api := llm_api_wrapper; chunk_size := 2000; overlap := 200;
     max_workers := 4 |}.

(** The values of the metadata mapping: strings, and an integer for
    [page_count]. *)
Inductive pyval : Type :=
  | PStr (s : str)
  | PInt (n : Z).

(** The text an f-string prints for a value. *)
Definition format_val (v : pyval) : str :=
  match v with
  | PStr s => s
  | PInt n => py (NilZero.string_of_int (Z.to_int n))
  end.

(** [metadata.get(key, fallback)], formatted. *)
Definition get_str (metadata : gmap string pyval) (key fallback : string) : str :=
  format_val (default (PStr (py fallback)) (metadata !! key)).

(** ** The Chunker *)

(** The chunks between consecutive boundaries, then the last section. *)
Definition boundary_chunks (text : str) (boundaries : list nat) : list str :=
  map (fun i => slice (boundaries !!! i) (boundaries !!! (i + 1)) text)
      (seq 0 (length boundaries - 1))
  ++ [slice_from (default 0 (last boundaries)) text].

(** [len(chunk) > self.chunk_size * 1.5], for an integer [chunk_size]: both
    sides are doubled, which keeps the comparison within the integers (the
    product by 1.5 is exact for sizes below 2^52). *)
Definition too_big (cs : Z) (chunk : str) : bool := (3 * cs <? 2 * len chunk)%Z.

(** The packing test [len(current_chunk) + len(para) < self.chunk_size]. *)
Definition fits (cs : Z) (current_chunk para : str) : bool :=
  (len current_chunk + len para <? cs)%Z.

(** The inner loop of the boundary path, over the paragraphs of one chunk;
    the state is [final_chunks] and [current_chunk]. *)
Fixpoint resplit_loop (cs : Z) (paragraphs : list str)
    (final_chunks : list str) (current_chunk : str) : list str * str :=
  match paragraphs with
  | [] => (final_chunks, current_chunk)
  | para :: rest =>
      if fits cs current_chunk para
      then resplit_loop cs rest final_chunks (current_chunk ++ para ++ sep)
      else resplit_loop cs rest
             (if truthy current_chunk then final_chunks ++ [current_chunk]
              else final_chunks)
             (para ++ sep)
  end.

(** The body of the loop [for chunk in chunks] of the boundary path. *)
Definition resplit (cs : Z) (final_chunks : list str) (chunk : str) : list str :=
  if too_big cs chunk then
    let '(final_chunks', current_chunk) :=
      resplit_loop cs (split_sep chunk) final_chunks [] in
    if truthy current_chunk then final_chunks' ++ [current_chunk]
    else final_chunks'
  else final_chunks ++ [chunk].

(** The loop of the fallback path; the state is [chunks] and
    [current_chunk]. *)
Fixpoint fallback_loop (cs : Z) (paragraphs : list str)
    (chunks : list str) (current_chunk : str) : list str * str :=
  match paragraphs with
  | [] => (chunks, current_chunk)
  | para :: rest =>
      if fits cs current_chunk para
      then fallback_loop cs rest chunks (current_chunk ++ para ++ sep)
      else fallback_loop cs rest (chunks ++ [current_chunk]) (para ++ sep)
  end.

Definition fallback_chunks (cs : Z) (text : str) : list str :=
  let '(chunks, current_chunk) := fallback_loop cs (split_sep text) [] [] in
  if truthy current_chunk then chunks ++ [current_chunk] else chunks.

(** The test [len(boundaries) > 1 and len(boundaries) < 30]. *)
Definition reasonable (boundaries : list nat) : bool :=
  ((1 <? length boundaries) && (length boundaries <? 30))%bool.

Definition create_semantic_chunks (self : PDFSummarizer) (text : str) : list str :=
  let boundaries := detect_section_boundaries text in
  if reasonable boundaries then
    let chunks := boundary_chunks text boundaries in
    fold_left (resplit (chunk_size self)) chunks []
  else fallback_chunks (chunk_size self) text.

(** ** The Chunk Summarizer and the Reducer *)

(** A line of a prompt template, with its end of line. *)
Definition line (s : string) : str := py s ++ [nl].

(** [sp.join(l)]. *)
Fixpoint join (sp : str) (l : list str) : str :=
  match l with
  | [] => []
  | [s] => s
  | s :: l' => s ++ sp ++ join sp l'
  end.

Definition chunk_prompt (chunk : str) (metadata : gmap string pyval)
    (is_financial : bool) : str :=
  if is_financial then
    line "Summarize the following section of a financial document. "
    ++ line "Focus on preserving:"
    ++ line "1. Important financial terms, metrics, and numbers"
    ++ line "2. Policy statements and legal obligations"
    ++ line "3. Risk factors and warnings"
    ++ line "4. Key dates, timelines, and deadlines"
    ++ line ""
    ++ py "Document Title: " ++ get_str metadata "title" "Unknown" ++ [nl]
    ++ line "Document Section:"
    ++ chunk ++ [nl]
    ++ line ""
    ++ py "Provide a concise yet comprehensive summary that maintains all critical financial information and regulatory details:"
  else
    line "Summarize the following section of a document."
    ++ py "Document Title: " ++ get_str metadata "title" "Unknown" ++ [nl]
    ++ line "Document Section:"
    ++ chunk ++ [nl]
    ++ line ""
    ++ py "Provide a concise yet comprehensive summary:".

Definition summarize_chunk (self : PDFSummarizer) (chunk : str)
    (metadata : gmap string pyval) (is_financial : bool) : outcome str :=
  let prompt := chunk_prompt chunk metadata is_financial in
  response ← llm_api self prompt;
  mret response.

(** The list comprehension of [summarize_summaries], joined. *)
Definition all_summaries (summaries : list str) : str :=
  join sep (imap (fun i summary =>
                    py "Section " ++ format_val (PInt (Z.of_nat (i + 1)))
                    ++ line " Summary:" ++ summary)
                 summaries).

Definition document_header (metadata : gmap string pyval) : str :=
  py "Document Title: " ++ get_str metadata "title" "Unknown" ++ [nl]
  ++ py "Document Author: " ++ get_str metadata "author" "Unknown" ++ [nl]
  ++ py "Document Keywords: " ++ get_str metadata "keywords" "" ++ [nl]
  ++ py "Total Pages: " ++ get_str metadata "page_count" "Unknown" ++ [nl].

Definition reduce_prompt (summaries : list str) (metadata : gmap string pyval)
    (is_financial : bool) : str :=
  if is_financial then
    line "You are creating a final comprehensive summary of a financial document."
    ++ line "Below are summaries of each section of the document."
    ++ line ""
    ++ document_header metadata
    ++ line ""
    ++ all_summaries summaries ++ [nl]
    ++ line ""
    ++ line "Create a well-structured final summary of the entire document that:"
    ++ line "1. Preserves all critical financial information, terms, and metrics"
    ++ line "2. Maintains all policy statements and compliance requirements"
    ++ line "3. Highlights key risk factors and warnings"
    ++ line "4. Organizes information logically by sections"
    ++ line "5. Includes important dates, deadlines, and timelines"
    ++ line ""
    ++ py "The summary should be comprehensive enough to serve as a reliable reference to the original document:"
  else
    line "You are creating a final comprehensive summary of a document."
    ++ line "Below are summaries of each section of the document."
    ++ line ""
    ++ document_header metadata
    ++ line ""
    ++ all_summaries summaries ++ [nl]
    ++ line ""
    ++ py "Create a well-structured final summary of the entire document that captures all the key information and maintains the logical flow:".

Definition summarize_summaries (self : PDFSummarizer) (summaries : list str)
    (metadata : gmap string pyval) (is_financial : bool) : outcome str :=
  let prompt := reduce_prompt summaries metadata is_financial in
  response ← llm_api self prompt;
  mret response.

(** ** The map stage and [summarize_pdf]

    The capability is a function of the prompt, so the future submitted for
    the [i]-th chunk holds the outcome of [summarize_chunk] on that chunk,
    whichever worker runs it and whenever it does.  What the pool leaves open
    is the order in which [as_completed] yields the futures: it is the
    parameter [completion], the list of the chunk indices in completion
    order. *)

(** [ThreadPoolExecutor(max_workers=n)] refuses a pool without workers. *)
Definition thread_pool_executor (n : Z) : outcome unit :=
  if (n <=? 0)%Z
  then Raised (Exception (py "max_workers must be greater than 0"))
  else Returned tt.

(** The futures in submission order, the order of [enumerate(chunks)]. *)
Definition submit_all (self : PDFSummarizer) (chunks : list str)
    (metadata : gmap string pyval) (is_financial : bool) : list (outcome str) :=
  map (fun chunk => summarize_chunk self chunk metadata is_financial) chunks.

Definition error_placeholder (e : exn) : str :=
  py "[Error summarizing this section: " ++ exn_str e ++ py "]".

(** The body of the loop over [as_completed]: the future of index
    [chunk_idx] has completed, and [future.result()] returns its summary or
    raises its exception again.  The message that the handler prints is not
    part of the state.  An index without a future is never yielded. *)
Definition collect (futures : list (outcome str))
    (chunk_summaries : list (nat * str)) (chunk_idx : nat)
  : outcome (list (nat * str)) :=
  match futures !! chunk_idx with
  | Some future =>
      try_except
        (summary ← future;
         mret (chunk_summaries ++ [(chunk_idx, summary)]))
        (fun e => mret (chunk_summaries ++ [(chunk_idx, error_placeholder e)]))
  | None => mret chunk_summaries
  end.

Fixpoint as_completed_loop (futures : list (outcome str))
    (completion : list nat) (chunk_summaries : list (nat * str))
  : outcome (list (nat * str)) :=
  match completion with
  | [] => mret chunk_summaries
  | chunk_idx :: rest =>
      chunk_summaries' ← collect futures chunk_summaries chunk_idx;
      as_completed_loop futures rest chunk_summaries'
  end.

Definition map_stage (self : PDFSummarizer) (completion : list nat)
    (chunks : list str) (metadata : gmap string pyval) (is_financial : bool)
  : outcome (list (nat * str)) :=
  _ ← thread_pool_executor (max_workers self);
  as_completed_loop (submit_all self chunks metadata is_financial) completion [].

(** [chunk_summaries.sort(key=lambda x: x[0])]: a stable sort on the index. *)
Fixpoint insert_by_key (x : nat * str) (l : list (nat * str)) : list (nat * str) :=
  match l with
  | [] => [x]
  | y :: l' => if x.1 <=? y.1 then x :: l else y :: insert_by_key x l'
  end.

Definition sort_by_key (l : list (nat * str)) : list (nat * str) :=
  foldr insert_by_key [] l.

(** The dictionary that [summarize_pdf] returns. *)
Record summary : Type := {
  metadata : gmap string pyval;
  chunk_count : nat;
  section_summaries : list str;
  final_summary : str
}.

(** [summarize_pdf], from the text and the metadata that
    [extract_text_and_metadata] read from the file. *)
Definition summarize_pdf (self : PDFSummarizer) (completion : list nat)
    (text : str) (metadata : gmap string pyval) (is_financial : bool)
  : outcome summary :=
  let chunks := create_semantic_chunks self text in
  chunk_summaries ← map_stage self completion chunks metadata is_financial;
  let summaries := (sort_by_key chunk_summaries).*2 in
  final_summary ← summarize_summaries self summaries metadata is_financial;
  mret {| metadata := metadata;
          chunk_count := length chunks;
          section_summaries := summaries;
          final_summary := final_summary |}.

(** ** Text extraction

    [extract_text_and_metadata] reads the file with [PyPDF2]; the model
    starts from what the reader gives: the document information, a mapping
    with the keys of the PDF format, and for each page the text that
    [extract_text] returns. *)

Record PdfReader : Type := {
  reader_metadata : gmap string pyval;
  reader_pages : list str
}.

(** [s.lstrip()]: the white space of [str.strip] is that of [\s]. *)
Fixpoint lstrip (s : str) : str :=
  match s with
  | [] => []
  | c :: s' => if is_space c then lstrip s' else s
  end.

(** [s.strip()]. *)
Definition strip (s : str) : str := rev (lstrip (rev (lstrip s))).

(** The f-string of a page: its number, counted from 1, and its text. *)
Definition page_label (i : nat) (page_text : str) : str :=
  py "[Page " ++ format_val (PInt (Z.of_nat (i + 1))) ++ py "] " ++ page_text.

(** The loop over [enumerate(reader.pages)], from the index [i] on; the
    state is [text_with_page]. *)
Fixpoint pages_loop (i : nat) (pages : list str) (text_with_page : list str)
  : list str :=
  match pages with
  | [] => text_with_page
  | page_text :: rest =>
      pages_loop (S i) rest
        (if truthy (strip page_text)
         then text_with_page ++ [page_label i page_text]
         else text_with_page)
  end.

Definition extract_text_and_metadata (reader : PdfReader)
  : str * gmap string pyval :=
  let info := reader_metadata reader in
  let metadata : gmap string pyval :=
    list_to_map
      [("title", default (PStr (py "Unknown")) (info !! "/Title"));
       ("author", default (PStr (py "Unknown")) (info !! "/Author"));
       ("subject", default (PStr (py "")) (info !! "/Subject"));
       ("keywords", default (PStr (py "")) (info !! "/Keywords"));
       ("creation_date", default (PStr (py "")) (info !! "/CreationDate"));
       ("modification_date", default (PStr (py "")) (info !! "/ModDate"));
       ("page_count", PInt (Z.of_nat (length (reader_pages reader))))] in
  let text_with_page := pages_loop 0 (reader_pages reader) [] in
  let full_text := join sep text_with_page in
  (full_text, metadata).


(** ** The example of the source *)

(** [example_llm_api]: the placeholder capability of the usage example. *)
Definition example_llm_api (prompt : str) : outcome str :=
  mret (py "This is where the LLM response would be for: "
        ++ take 50 prompt ++ py "...").

(** [PDFSummarizer(example_llm_api, chunk_size=10)]. *)
Definition small_summarizer : PDFSummarizer :=
  {| llm_api := example_llm_api; chunk_size := 10; overlap := 200;
     max_workers := 4 |}.

(** A capability that fails on the prompt of one section, the chunk
    ["boom\n\n"] of an untitled document, and answers as the example does
    on every other prompt. *)
Definition flaky_api (prompt : str) : outcome str :=
  if bool_decide (prompt = chunk_prompt (py "boom" ++ sep) ∅ true)
  then Raised (Exception (py "timeout"))
  else example_llm_api prompt.

(** A capability that fails on the prompts of the Reducer, which start with
    ["You are creating"], and answers as the example does on the others. *)
Definition failing_reducer_api (prompt : str) : outcome str :=
  if bool_decide (take 16 prompt = py "You are creating")
  then Raised (Exception (py "rate limit exceeded"))
  else example_llm_api prompt.

(** ** Vocabulary of the properties *)

(** A list of offsets is strictly increasing. *)
Definition increasing (l : list nat) : Prop := StronglySorted lt l.

(** Every paragraph followed by the separator, as the packing loops append
    them. *)
Definition terminated (paragraphs : list str) : str :=
  concat (map (fun para => para ++ sep) paragraphs).

(** The chunk ends with a separator. *)
Definition closed (chunk : str) : Prop := ∃ body, chunk = body ++ sep.

(** [chunks] cover [text] from left to right: the text is cut into
    consecutive segments, one for each chunk in order, and each chunk is its
    segment, possibly followed by one separator added by the packing. *)
Definition covers (text : str) (chunks : list str) : Prop :=
  ∃ segments,
    concat segments = text
    ∧ Forall2 (fun segment chunk => chunk = segment ∨ chunk = segment ++ sep)
              segments chunks.

(** The size of a packed chunk: it overshoots the target [cs] by at most one
    character, or it is a single one of the [paragraphs], of length at least
    [cs], followed by the separator. *)
Definition packed (cs : Z) (paragraphs : list str) (chunk : str) : Prop :=
  (len chunk ≤ cs + 1)%Z
  ∨ ∃ para, para ∈ paragraphs ∧ chunk = para ++ sep ∧ (cs ≤ len para)%Z.

(** What the packing loops keep true of [current_chunk]: it is empty, or
    closed and packed. *)
Definition filling (cs : Z) (paragraphs : list str) (current_chunk : str) : Prop :=
  current_chunk = []
  ∨ (closed current_chunk ∧ packed cs paragraphs current_chunk).

(** What the map stage records for a completed future: its summary, or the
    placeholder of the error that it raised. *)
Definition entry_of (future : outcome str) : str :=
  match future with
  | Returned summary => summary
  | Raised e => error_placeholder e
  end.

(** The result that the map stage records for the future of index [i]. *)
Definition tagged (futures : list (outcome str)) (i : nat) : nat * str :=
  (i, entry_of (default (Returned []) (futures !! i))).

(** The order of the sort keys. *)
Definition key_le (a b : nat * str) : Prop := a.1 ≤ b.1.

(** The entry of a chunk in [section_summaries]. *)
Definition entry (self : PDFSummarizer) (metadata : gmap string pyval)
    (is_financial : bool) (chunk : str) : str :=
  entry_of (summarize_chunk self chunk metadata is_financial).

(** [completion] is a completion order of [n] futures: [as_completed] yields
    each of them once. *)
Definition completion_order (n : nat) (completion : list nat) : Prop :=
  completion ≡ₚ seq 0 n.


(** The groups of paragraphs are packed greedily: a group is only followed
    by another when the first paragraph of the next one did not fit. *)
Definition maximal (cs : Z) (groups : list (list str)) : Prop :=
  ∀ i group para others,
    groups !! i = Some group →
    groups !! S i = Some (para :: others) →
    (cs ≤ len (terminated group) + len para)%Z.

(** What the packing loops build from the group [g0] of [current_chunk]
    and the paragraphs [ps], in terms of groups of paragraphs: [groups] are
    the groups appended and [last] is the group of the final
    [current_chunk].  No paragraph is lost or moved, the first group extends
    [g0], the other ones are not empty, and the packing is greedy. *)
Definition grouping (cs : Z) (g0 ps : list str) (groups : list (list str))
    (last : list str) : Prop :=
  g0 ++ ps = concat groups ++ last
  ∧ (∃ first others more,
       groups ++ [last] = first :: others ∧ first = g0 ++ more
       ∧ Forall (fun g => g ≠ []) others)
  ∧ maximal cs (groups ++ [last]).

(** * Properties of the Segmenter *)

Section Segmenter.

Lemma sorted_set_elem_of (l : list nat) (x : nat) :
  x ∈ sorted_set l ↔ x ∈ l.
Proof.
  unfold sorted_set.
  rewrite merge_sort_Permutation, elem_of_elements, elem_of_list_to_set.
  reflexivity.
Qed.

Lemma sorted_set_NoDup (l : list nat) : NoDup (sorted_set l).
Proof.
  unfold sorted_set. rewrite merge_sort_Permutation. apply NoDup_elements.
Qed.

Lemma le_NoDup_increasing (l : list nat) :
  StronglySorted le l → NoDup l → increasing l.
Proof.
  unfold increasing.
  induction 1 as [|x l Hl IH Hx]; intros Hnd; [constructor|].
  apply NoDup_cons in Hnd as [Hnotin Hnd].
  constructor; [auto|].
  rewrite Forall_forall in Hx |- *. intros y Hy.
  specialize (Hx y Hy).
  assert (x ≠ y) by (intros ->; contradiction).
  lia.
Qed.

Lemma sorted_set_increasing (l : list nat) : increasing (sorted_set l).
Proof.
  apply le_NoDup_increasing; [|apply sorted_set_NoDup].
  unfold sorted_set. apply StronglySorted_merge_sort; apply _.
Qed.

Lemma increasing_head_min (x : nat) (l : list nat) :
  increasing (x :: l) → ∀ y, y ∈ x :: l → x ≤ y.
Proof.
  intros Hs y Hy. apply StronglySorted_cons in Hs as [Hall _].
  apply elem_of_cons in Hy as [->|Hy]; [lia|].
  rewrite Forall_forall in Hall. specialize (Hall y Hy). lia.
Qed.

(** Two strictly increasing lists with the same elements are equal. *)
Lemma increasing_ext (l1 l2 : list nat) :
  increasing l1 → increasing l2 → (∀ x, x ∈ l1 ↔ x ∈ l2) → l1 = l2.
Proof.
  revert l2. induction l1 as [|a l1 IH]; intros [|b l2] H1 H2 Hiff.
  - reflexivity.
  - exfalso. apply (not_elem_of_nil b), Hiff. left.
  - exfalso. apply (not_elem_of_nil a), Hiff. left.
  - assert (a = b) as ->.
    { pose proof (increasing_head_min _ _ H1 b) as Hab.
      pose proof (increasing_head_min _ _ H2 a) as Hba.
      assert (b ∈ a :: l1) by (apply Hiff; left).
      assert (a ∈ b :: l2) by (apply Hiff; left).
      specialize (Hab ltac:(assumption)). specialize (Hba ltac:(assumption)).
      lia. }
    f_equal.
    apply StronglySorted_cons in H1 as [Hall1 H1].
    apply StronglySorted_cons in H2 as [Hall2 H2].
    rewrite Forall_forall in Hall1, Hall2.
    apply IH; [assumption..|].
    intros x. split; intros Hx.
    + assert (x ∈ b :: l2) as Hx' by (apply Hiff; right; exact Hx).
      apply elem_of_cons in Hx' as [->|Hx']; [|exact Hx'].
      specialize (Hall1 b Hx). lia.
    + assert (x ∈ b :: l1) as Hx' by (apply Hiff; right; exact Hx).
      apply elem_of_cons in Hx' as [->|Hx']; [|exact Hx'].
      specialize (Hall2 b Hx). lia.
Qed.

Lemma detect_increasing (text : str) :
  increasing (detect_section_boundaries text).
Proof. apply sorted_set_increasing. Qed.

Lemma detect_elem_of (text : str) (x : nat) :
  x ∈ detect_section_boundaries text ↔ x = 0 ∨ x ∈ header_offsets text.
Proof.
  unfold detect_section_boundaries.
  rewrite sorted_set_elem_of, elem_of_cons. reflexivity.
Qed.

(** The first boundary is the start of the document. *)
Lemma detect_head (text : str) :
  ∃ rest, detect_section_boundaries text = 0 :: rest.
Proof.
  pose proof (detect_increasing text) as Hs.
  assert (0 ∈ detect_section_boundaries text) as H0
    by (apply detect_elem_of; left; reflexivity).
  destruct (detect_section_boundaries text) as [|b rest].
  - exfalso. exact (not_elem_of_nil _ H0).
  - pose proof (increasing_head_min _ _ Hs 0 H0).
    exists rest. f_equal. lia.
Qed.

Lemma header_offsets_nil (text : str) :
  (∀ pattern, pattern ∈ patterns → finditer_starts pattern text = []) →
  header_offsets text = [].
Proof.
  unfold header_offsets. generalize patterns.
  induction l as [|p ps IH]; intros H; [reflexivity|]. simpl.
  rewrite (H p) by left. simpl. apply IH. intros q Hq. apply H. right. exact Hq.
Qed.

(** A pattern that cannot match the empty string only matches inside the
    text. *)
Lemma finditer_from_bounds (r : regex) :
  rmatch r [] = [] →
  ∀ (s : str) (pos skip x : nat),
    x ∈ finditer_from r pos skip s → pos ≤ x < pos + length s.
Proof.
  intros Hnull. induction s as [|c s IH]; intros pos skip x Hx.
  - destruct skip; simpl in Hx.
    + rewrite Hnull in Hx. exfalso. exact (not_elem_of_nil _ Hx).
    + exfalso. exact (not_elem_of_nil _ Hx).
  - destruct skip as [|k].
    + cbn [finditer_from] in Hx.
      destruct (rmatch r (c :: s)) as [|rest ?].
      * apply IH in Hx. simpl. lia.
      * apply elem_of_cons in Hx as [->|Hx]; [simpl; lia|].
        apply IH in Hx. simpl. lia.
    + cbn [finditer_from] in Hx. apply IH in Hx. simpl. lia.
Qed.

Lemma patterns_not_nullable :
  Forall (fun pattern => rmatch pattern [] = []) patterns.
Proof. repeat constructor. Qed.

(** Every boundary other than 0 is the offset of a character of the text. *)
Lemma detect_in_text (text : str) (x : nat) :
  x ∈ detect_section_boundaries text → x = 0 ∨ x < length text.
Proof.
  intros Hx. apply detect_elem_of in Hx as [->|Hx]; [left; reflexivity|].
  right. unfold header_offsets in Hx.
  apply list_elem_of_In, in_concat in Hx as (l & Hl & Hx).
  apply in_map_iff in Hl as (p & <- & Hp).
  pose proof patterns_not_nullable as Hnn.
  rewrite Forall_forall in Hnn.
  apply list_elem_of_In in Hp, Hx.
  apply (finditer_from_bounds p (Hnn p Hp)) in Hx. lia.
Qed.

End Segmenter.

(** C8: for every text, [detect_section_boundaries] returns a strictly
    increasing list of offsets, hence sorted and without duplicates, that
    starts with the offset 0; every offset is 0 or the offset of a character
    of the text; and when no header pattern matches, the result is exactly
    [[0]].  The function is total: it returns on every text. *)
Theorem detect_section_boundaries_spec (text : str) :
  increasing (detect_section_boundaries text)
  ∧ NoDup (detect_section_boundaries text)
  ∧ 0 ∈ detect_section_boundaries text
  ∧ (∀ x, x ∈ detect_section_boundaries text → x = 0 ∨ x < length text)
  ∧ ((∀ pattern, pattern ∈ patterns → finditer_starts pattern text = []) →
     detect_section_boundaries text = [0]).
Proof.
  split; [apply detect_increasing|].
  split; [apply sorted_set_NoDup|].
  split; [apply detect_elem_of; left; reflexivity|].
  split; [apply detect_in_text|].
  intros Hnone.
  apply increasing_ext.
  - apply detect_increasing.
  - repeat constructor.
  - intros x. rewrite detect_elem_of, (header_offsets_nil _ Hnone).
    rewrite list_elem_of_singleton. split; [intros [->|H]|intros ->].
    + reflexivity.
    + exfalso. exact (not_elem_of_nil _ H).
    + left. reflexivity.
Qed.

(** The text ["abc"] has no header: its only boundary is the offset 0. *)
Lemma detect_section_boundaries_spec_witness :
  detect_section_boundaries (py "abc") = [0].
Proof.
  apply (detect_section_boundaries_spec (py "abc")).
  intros pattern Hp.
  repeat (apply elem_of_cons in Hp as [->|Hp]; [reflexivity|]).
  exfalso. exact (not_elem_of_nil _ Hp).
Defined.

(** * Properties of the Chunker *)

Section Splitting.

Lemma split_sep_step (c c' : ascii) (r : str) :
  split_sep (c :: c' :: r) =
    if (Ascii.eqb c nl && Ascii.eqb c' nl)%bool then [] :: split_sep r
    else match split_sep (c' :: r) with
         | p :: ps => (c :: p) :: ps
         | [] => [[c]]
         end.
Proof. reflexivity. Qed.

Lemma split_sep_not_nil (s : str) : split_sep s ≠ [].
Proof.
  destruct s as [|c [|c' r]]; [discriminate..|].
  rewrite split_sep_step.
  destruct (Ascii.eqb c nl && Ascii.eqb c' nl)%bool; [discriminate|].
  destruct (split_sep (c' :: r)); discriminate.
Qed.

(** Putting the separator back after every piece rebuilds the string,
    followed by one separator. *)
Lemma terminated_split_sep (s : str) : terminated (split_sep s) = s ++ sep.
Proof.
  unfold terminated.
  assert (∀ n (s : str), length s ≤ n →
            concat (map (fun para => para ++ sep) (split_sep s)) = s ++ sep)
    as H; [|exact (H (length s) s (le_n _))].
  clear s. induction n as [|n IH]; intros s Hn.
  - destruct s; [reflexivity|simpl in Hn; lia].
  - destruct s as [|c [|c' r]]; [reflexivity..|].
    rewrite split_sep_step.
    destruct (Ascii.eqb c nl && Ascii.eqb c' nl)%bool eqn:E.
    + apply andb_prop in E as [E1 E2].
      apply Ascii.eqb_eq in E1, E2. subst c c'.
      cbn [map concat]. rewrite IH by (simpl in Hn; lia). reflexivity.
    + pose proof (IH (c' :: r) ltac:(simpl in *; lia)) as Hrec.
      pose proof (split_sep_not_nil (c' :: r)) as Hne.
      destruct (split_sep (c' :: r)) as [|p ps]; [contradiction|].
      cbn [map concat] in *.
      change ((c :: c' :: r) ++ sep) with (c :: ((c' :: r) ++ sep)).
      rewrite <- Hrec. reflexivity.
Qed.

End Splitting.

Section Packing.

Variable cs : Z.
Variable paragraphs : list str.

Lemma len_app (s t : str) : len (s ++ t) = (len s + len t)%Z.
Proof. unfold len. rewrite length_app. lia. Qed.

Lemma len_sep : len sep = 2%Z.
Proof. reflexivity. Qed.

Lemma closed_not_nil (chunk : str) : closed chunk → chunk ≠ [].
Proof. intros [body ->]. destruct body; discriminate. Qed.

Lemma truthy_closed (chunk : str) : closed chunk → truthy chunk = true.
Proof. intros [body ->]. destruct body; reflexivity. Qed.

Lemma filling_extend (current_chunk para : str) :
  fits cs current_chunk para = true →
  closed (current_chunk ++ para ++ sep)
  ∧ packed cs paragraphs (current_chunk ++ para ++ sep).
Proof.
  unfold fits. intros Hfit%Z.ltb_lt. split.
  - exists (current_chunk ++ para). rewrite app_assoc. reflexivity.
  - left. rewrite !len_app, len_sep. lia.
Qed.

Lemma filling_restart (current_chunk para : str) :
  para ∈ paragraphs →
  closed (para ++ sep) ∧ packed cs paragraphs (para ++ sep).
Proof.
  intros Hin. split; [exists para; reflexivity|].
  destruct (Z_lt_le_dec (len para) cs) as [Hlt|Hge].
  - left. rewrite len_app, len_sep. lia.
  - right. exists para. auto.
Qed.

(** The inner loop of the boundary path: it appends closed, packed
    sub-chunks, loses no character, and leaves a closed [current_chunk]
    once it has seen a paragraph. *)
Lemma resplit_loop_spec (ps : list str) :
  ∀ (final_chunks : list str) (current_chunk : str)
    (final_chunks' : list str) (current_chunk' : str),
    (∀ para, para ∈ ps → para ∈ paragraphs) →
    filling cs paragraphs current_chunk →
    resplit_loop cs ps final_chunks current_chunk
      = (final_chunks', current_chunk') →
    ∃ subs,
      final_chunks' = final_chunks ++ subs
      ∧ Forall (fun c => closed c ∧ packed cs paragraphs c) subs
      ∧ concat subs ++ current_chunk' = current_chunk ++ terminated ps
      ∧ filling cs paragraphs current_chunk'
      ∧ (ps ≠ [] → closed current_chunk').
Proof.
  induction ps as [|para rest IH];
    intros fc cur fc' cur' Hsub Hcur Hrun; simpl in Hrun.
  - injection Hrun as <- <-. exists []. rewrite !app_nil_r.
    split; [reflexivity|]. split; [constructor|].
    split; [reflexivity|]. split; [assumption|congruence].
  - assert (Hrest : ∀ p, p ∈ rest → p ∈ paragraphs)
      by (intros p Hp; apply Hsub; right; exact Hp).
    assert (Hpara : para ∈ paragraphs) by (apply Hsub; left).
    assert (Hstep : ∀ fc0 c,
               closed c ∧ packed cs paragraphs c →
               resplit_loop cs rest fc0 c = (fc', cur') →
               ∃ subs, fc' = fc0 ++ subs
                 ∧ Forall (fun c => closed c ∧ packed cs paragraphs c) subs
                 ∧ concat subs ++ cur' = c ++ terminated rest
                 ∧ filling cs paragraphs cur' ∧ closed cur').
    { intros fc0 c Hc Hrun0.
      destruct (IH _ _ _ _ Hrest (or_intror Hc) Hrun0)
        as (subs & -> & Hall & Hcat & Hfill & Hcl).
      exists subs. split; [reflexivity|]. split; [assumption|].
      split; [assumption|]. split; [assumption|].
      destruct rest as [|p' rest'].
      - simpl in Hrun0. injection Hrun0 as _ <-. apply Hc.
      - apply Hcl. discriminate. }
    destruct (fits cs cur para) eqn:Hfit.
    + destruct (Hstep _ _ (filling_extend cur para Hfit) Hrun)
        as (subs & -> & Hall & Hcat & Hfill & Hcl).
      exists subs. split; [reflexivity|]. split; [assumption|].
      split; [|split; [assumption|intros _; assumption]].
      rewrite Hcat. unfold terminated. cbn [map concat].
      rewrite <- !app_assoc. reflexivity.
    + destruct (Hstep _ _ (filling_restart cur para Hpara) Hrun)
        as (subs & -> & Hall & Hcat & Hfill & Hcl).
      destruct Hcur as [->|Hcur].
      * exists subs. cbn [truthy]. split; [reflexivity|].
        split; [assumption|].
        split; [|split; [assumption|intros _; assumption]].
        rewrite Hcat. reflexivity.
      * rewrite (truthy_closed cur) by apply Hcur.
        exists (cur :: subs). split; [rewrite <- app_assoc; reflexivity|].
        split; [constructor; assumption|].
        split; [|split; [assumption|intros _; assumption]].
        cbn [concat]. rewrite <- app_assoc, Hcat.
        unfold terminated. cbn [map concat].
        rewrite <- !app_assoc. reflexivity.
Qed.

(** The loop of the fallback path: as above, except that the chunk it
    appends may be the empty [current_chunk] of the start. *)
Lemma fallback_loop_spec (ps : list str) :
  ∀ (chunks : list str) (current_chunk : str)
    (chunks' : list str) (current_chunk' : str),
    (∀ para, para ∈ ps → para ∈ paragraphs) →
    filling cs paragraphs current_chunk →
    fallback_loop cs ps chunks current_chunk = (chunks', current_chunk') →
    ∃ subs,
      chunks' = chunks ++ subs
      ∧ Forall (filling cs paragraphs) subs
      ∧ concat subs ++ current_chunk' = current_chunk ++ terminated ps
      ∧ filling cs paragraphs current_chunk'
      ∧ (ps ≠ [] → closed current_chunk').
Proof.
  induction ps as [|para rest IH];
    intros fc cur fc' cur' Hsub Hcur Hrun; simpl in Hrun.
  - injection Hrun as <- <-. exists []. rewrite !app_nil_r.
    split; [reflexivity|]. split; [constructor|].
    split; [reflexivity|]. split; [assumption|congruence].
  - assert (Hrest : ∀ p, p ∈ rest → p ∈ paragraphs)
      by (intros p Hp; apply Hsub; right; exact Hp).
    assert (Hpara : para ∈ paragraphs) by (apply Hsub; left).
    assert (Hstep : ∀ fc0 c,
               closed c ∧ packed cs paragraphs c →
               fallback_loop cs rest fc0 c = (fc', cur') →
               ∃ subs, fc' = fc0 ++ subs
                 ∧ Forall (filling cs paragraphs) subs
                 ∧ concat subs ++ cur' = c ++ terminated rest
                 ∧ filling cs paragraphs cur' ∧ closed cur').
    { intros fc0 c Hc Hrun0.
      destruct (IH _ _ _ _ Hrest (or_intror Hc) Hrun0)
        as (subs & -> & Hall & Hcat & Hfill & Hcl).
      exists subs. split; [reflexivity|]. split; [assumption|].
      split; [assumption|]. split; [assumption|].
      destruct rest as [|p' rest'].
      - simpl in Hrun0. injection Hrun0 as _ <-. apply Hc.
      - apply Hcl. discriminate. }
    destruct (fits cs cur para) eqn:Hfit.
    + destruct (Hstep _ _ (filling_extend cur para Hfit) Hrun)
        as (subs & -> & Hall & Hcat & Hfill & Hcl).
      exists subs. split; [reflexivity|]. split; [assumption|].
      split; [|split; [assumption|intros _; assumption]].
      rewrite Hcat. unfold terminated. cbn [map concat].
      rewrite <- !app_assoc. reflexivity.
    + destruct (Hstep _ _ (filling_restart cur para Hpara) Hrun)
        as (subs & -> & Hall & Hcat & Hfill & Hcl).
      exists (cur :: subs). split; [rewrite <- app_assoc; reflexivity|].
      split; [constructor; assumption|].
      split; [|split; [assumption|intros _; assumption]].
      cbn [concat]. rewrite <- app_assoc, Hcat.
      unfold terminated. cbn [map concat].
      rewrite <- !app_assoc. reflexivity.
Qed.

End Packing.

Section Chunks.

Variable cs : Z.

(** The inner loop never reads [final_chunks]: it only appends to it. *)
Lemma resplit_loop_acc (ps : list str) :
  ∀ (final_chunks : list str) (current_chunk : str),
    resplit_loop cs ps final_chunks current_chunk =
      (final_chunks ++ (resplit_loop cs ps [] current_chunk).1,
       (resplit_loop cs ps [] current_chunk).2).
Proof.
  induction ps as [|para rest IH]; intros fc cur; simpl.
  - rewrite app_nil_r. reflexivity.
  - destruct (fits cs cur para); [apply IH|].
    rewrite IH. rewrite (IH (if truthy cur then [] ++ [cur] else [])).
    destruct (truthy cur); simpl; rewrite <- ?app_assoc; reflexivity.
Qed.

(** The sub-chunks that [resplit] appends for one chunk. *)
Lemma resplit_acc (final_chunks : list str) (chunk : str) :
  resplit cs final_chunks chunk = final_chunks ++ resplit cs [] chunk.
Proof.
  unfold resplit. destruct (too_big cs chunk); [|reflexivity].
  rewrite resplit_loop_acc.
  destruct (resplit_loop cs (split_sep chunk) [] []) as [fc cur].
  cbn [fst snd app]. destruct (truthy cur); rewrite <- ?app_assoc; reflexivity.
Qed.

Lemma fold_resplit (chunks acc : list str) :
  fold_left (resplit cs) chunks acc
    = acc ++ concat (map (resplit cs []) chunks).
Proof.
  revert acc. induction chunks as [|chunk rest IH]; intros acc; simpl.
  - rewrite app_nil_r. reflexivity.
  - rewrite IH, resplit_acc, <- app_assoc. reflexivity.
Qed.

(** A chunk that is not too big is kept as it is. *)
Lemma resplit_small (chunk : str) :
  too_big cs chunk = false → resplit cs [] chunk = [chunk].
Proof. unfold resplit. intros ->. reflexivity. Qed.

(** The sub-chunks of a chunk that is too big. *)
Lemma resplit_big (chunk : str) :
  too_big cs chunk = true →
  Forall (fun sub => closed sub ∧ packed cs (split_sep chunk) sub)
         (resplit cs [] chunk)
  ∧ concat (resplit cs [] chunk) = chunk ++ sep
  ∧ ∃ front body, resplit cs [] chunk = front ++ [body ++ sep].
Proof.
  unfold resplit. intros ->.
  destruct (resplit_loop cs (split_sep chunk) [] []) as [fc cur] eqn:E.
  destruct (resplit_loop_spec cs (split_sep chunk) _ _ _ _ _
              (fun _ H => H) (or_introl eq_refl) E)
    as (subs & -> & Hall & Hcat & Hfill & Hcl).
  specialize (Hcl (split_sep_not_nil chunk)).
  rewrite (truthy_closed cur Hcl). simpl in *.
  rewrite terminated_split_sep in Hcat.
  destruct Hfill as [->|Hfill]; [destruct (closed_not_nil [] Hcl eq_refl)|].
  split; [|split].
  - apply Forall_app. split; [assumption|]. constructor; [assumption|constructor].
  - rewrite concat_app. simpl. rewrite app_nil_r. exact Hcat.
  - destruct Hcl as [body ->]. exists subs, body. reflexivity.
Qed.

(** The chunks of the fallback path. *)
Lemma fallback_chunks_spec (text : str) :
  Forall (filling cs (split_sep text)) (fallback_chunks cs text)
  ∧ concat (fallback_chunks cs text) = text ++ sep
  ∧ ∃ front body, fallback_chunks cs text = front ++ [body ++ sep].
Proof.
  unfold fallback_chunks.
  destruct (fallback_loop cs (split_sep text) [] []) as [fc cur] eqn:E.
  destruct (fallback_loop_spec cs (split_sep text) _ _ _ _ _
              (fun _ H => H) (or_introl eq_refl) E)
    as (subs & -> & Hall & Hcat & Hfill & Hcl).
  specialize (Hcl (split_sep_not_nil text)).
  rewrite (truthy_closed cur Hcl). simpl in *.
  rewrite terminated_split_sep in Hcat.
  split; [|split].
  - apply Forall_app. split; [assumption|]. constructor; [assumption|constructor].
  - rewrite concat_app. simpl. rewrite app_nil_r. exact Hcat.
  - destruct Hcl as [body ->]. exists subs, body. reflexivity.
Qed.

End Chunks.


Section Coverage.

Lemma covers_nil : covers [] [].
Proof. exists []. split; [reflexivity|constructor]. Qed.

Lemma covers_single (chunk : str) : covers chunk [chunk].
Proof.
  exists [chunk]. split; [apply app_nil_r|].
  constructor; [left; reflexivity|constructor].
Qed.

Lemma covers_app (t1 t2 : str) (c1 c2 : list str) :
  covers t1 c1 → covers t2 c2 → covers (t1 ++ t2) (c1 ++ c2).
Proof.
  intros (s1 & <- & H1) (s2 & <- & H2). exists (s1 ++ s2).
  split; [apply concat_app|apply Forall2_app; assumption].
Qed.

(** Chunks that rebuild the text and one separator, the last of them
    closed, cover the text. *)
Lemma covers_closed_last (text : str) (front : list str) (body : str) :
  concat (front ++ [body ++ sep]) = text ++ sep →
  covers text (front ++ [body ++ sep]).
Proof.
  intros Hcat. exists (front ++ [body]). split.
  - rewrite concat_app in Hcat |- *. simpl in *.
    rewrite !app_nil_r in *. rewrite app_assoc in Hcat.
    exact (app_inv_tail _ _ _ Hcat).
  - apply Forall2_app.
    + apply Forall2_same_length_lookup_2; [reflexivity|].
      intros i x y Hx Hy. left. congruence.
    + constructor; [right; reflexivity|constructor].
Qed.

Lemma covers_resplit (cs : Z) (chunk : str) :
  covers chunk (resplit cs [] chunk).
Proof.
  destruct (too_big cs chunk) eqn:E.
  - destruct (resplit_big cs chunk E) as (_ & Hcat & front & body & Heq).
    rewrite Heq in Hcat |- *. apply covers_closed_last, Hcat.
  - rewrite (resplit_small cs chunk E). apply covers_single.
Qed.

Lemma covers_fold_resplit (cs : Z) (chunks : list str) :
  covers (concat chunks) (fold_left (resplit cs) chunks []).
Proof.
  rewrite fold_resplit. simpl.
  induction chunks as [|chunk rest IH]; [apply covers_nil|].
  simpl. apply covers_app; [apply covers_resplit|exact IH].
Qed.

Lemma covers_fallback (cs : Z) (text : str) :
  covers text (fallback_chunks cs text).
Proof.
  destruct (fallback_chunks_spec cs text) as (_ & Hcat & front & body & Heq).
  rewrite Heq in Hcat |- *. apply covers_closed_last, Hcat.
Qed.

End Coverage.

Section Boundaries.

Variable text : str.

Lemma boundary_chunks_one (b : nat) :
  boundary_chunks text [b] = [slice_from b text].
Proof. reflexivity. Qed.

Lemma boundary_chunks_cons (b b' : nat) (bs : list nat) :
  boundary_chunks text (b :: b' :: bs)
    = slice b b' text :: boundary_chunks text (b' :: bs).
Proof.
  unfold boundary_chunks.
  replace (length (b :: b' :: bs) - 1) with (S (length (b' :: bs) - 1))
    by (simpl; lia).
  cbn [seq map app]. f_equal. f_equal.
  rewrite <- seq_shift, map_map. apply map_ext. intros i. reflexivity.
Qed.

Lemma slice_then_rest (a b : nat) :
  a ≤ b → slice a b text ++ drop b text = drop a text.
Proof.
  intros Hab. unfold slice.
  replace (drop b text) with (drop (b - a) (drop a text)).
  - apply take_drop.
  - rewrite drop_drop. f_equal. lia.
Qed.

(** The chunks between increasing boundaries rebuild the text from the
    first boundary on. *)
Lemma concat_boundary_chunks (b : nat) (bs : list nat) :
  increasing (b :: bs) →
  concat (boundary_chunks text (b :: bs)) = drop b text.
Proof.
  revert b. induction bs as [|b' bs IH]; intros b Hs.
  - rewrite boundary_chunks_one. simpl. apply app_nil_r.
  - rewrite boundary_chunks_cons. cbn [concat].
    apply StronglySorted_cons in Hs as [Hall Hs].
    rewrite IH by exact Hs.
    apply slice_then_rest.
    apply Forall_cons in Hall as [Hlt _]. lia.
Qed.

Lemma length_boundary_chunks (bs : list nat) :
  length (boundary_chunks text bs) = S (length bs - 1).
Proof.
  unfold boundary_chunks.
  rewrite length_app, length_map, length_seq. simpl. lia.
Qed.

(** The chunk of index [i] spans from the boundary [i] to the next one. *)
Lemma lookup_boundary_chunks (bs : list nat) (i : nat) :
  i + 1 < length bs →
  boundary_chunks text bs !! i
    = Some (slice (bs !!! i) (bs !!! (i + 1)) text).
Proof.
  intros Hi. unfold boundary_chunks.
  rewrite lookup_app_l by (rewrite length_map, length_seq; lia).
  change (map ?f ?l) with (f <$> l).
  rewrite list_lookup_fmap, lookup_seq_lt by lia. reflexivity.
Qed.

(** The last chunk spans from the last boundary to the end of the text. *)
Lemma lookup_boundary_chunks_last (bs : list nat) :
  boundary_chunks text bs !! (length bs - 1)
    = Some (slice_from (default 0 (last bs)) text).
Proof.
  unfold boundary_chunks.
  rewrite lookup_app_r by (rewrite length_map, length_seq; lia).
  rewrite length_map, length_seq, Nat.sub_diag. reflexivity.
Qed.

Lemma drop_not_nil (n : nat) : n < length text → drop n text ≠ [].
Proof.
  intros Hn Heq. apply (f_equal length) in Heq.
  rewrite length_drop in Heq. simpl in Heq. lia.
Qed.

(** No chunk between increasing boundaries inside the text is empty. *)
Lemma boundary_chunks_not_nil (b : nat) (bs : list nat) :
  increasing (b :: bs) → (∀ x, x ∈ b :: bs → x < length text) →
  Forall (fun chunk => chunk ≠ []) (boundary_chunks text (b :: bs)).
Proof.
  revert b. induction bs as [|b' bs IH]; intros b Hs Hin.
  - rewrite boundary_chunks_one. constructor; [|constructor].
    apply drop_not_nil, Hin. left.
  - rewrite boundary_chunks_cons.
    apply StronglySorted_cons in Hs as [Hall Hs].
    apply Forall_cons in Hall as [Hlt _].
    constructor.
    + intros Heq. apply (f_equal length) in Heq. unfold slice in Heq.
      rewrite length_take, length_drop in Heq. simpl in Heq.
      assert (b < length text) by (apply Hin; left). lia.
    + apply IH; [exact Hs|]. intros x Hx. apply Hin. right. exact Hx.
Qed.

End Boundaries.

Section ChunkerPaths.

Variable self : PDFSummarizer.
Variable text : str.

Lemma reasonable_iff (boundaries : list nat) :
  reasonable boundaries = true ↔ 1 < length boundaries < 30.
Proof.
  unfold reasonable. rewrite andb_true_iff, !Nat.ltb_lt. reflexivity.
Qed.

Lemma create_boundary_path :
  reasonable (detect_section_boundaries text) = true →
  create_semantic_chunks self text
    = concat (map (resplit (chunk_size self) [])
                  (boundary_chunks text (detect_section_boundaries text))).
Proof.
  intros H. unfold create_semantic_chunks. rewrite H.
  rewrite fold_resplit. reflexivity.
Qed.

Lemma create_fallback_path :
  reasonable (detect_section_boundaries text) = false →
  create_semantic_chunks self text = fallback_chunks (chunk_size self) text.
Proof. intros H. unfold create_semantic_chunks. rewrite H. reflexivity. Qed.

Lemma concat_detected_chunks :
  concat (boundary_chunks text (detect_section_boundaries text)) = text.
Proof.
  pose proof (detect_increasing text) as Hs.
  destruct (detect_head text) as [rest Heq]. rewrite Heq in Hs |- *.
  rewrite concat_boundary_chunks by exact Hs. reflexivity.
Qed.

(** The chunks cover the text, on either path. *)
Lemma chunks_cover : covers text (create_semantic_chunks self text).
Proof.
  unfold create_semantic_chunks.
  destruct (reasonable (detect_section_boundaries text)).
  - rewrite <- concat_detected_chunks at 1. apply covers_fold_resplit.
  - apply covers_fallback.
Qed.

(** With two boundaries or more, every boundary is inside the text. *)
Lemma detected_inside :
  1 < length (detect_section_boundaries text) →
  ∀ x, x ∈ detect_section_boundaries text → x < length text.
Proof.
  intros Hlen.
  assert (0 < length text) as Hpos.
  { pose proof (detect_in_text text) as Hin.
    destruct (detect_head text) as [rest Heq]. rewrite Heq in Hlen, Hin.
    destruct rest as [|b rest]; [simpl in Hlen; lia|].
    pose proof (detect_increasing text) as Hs. rewrite Heq in Hs.
    apply StronglySorted_cons in Hs as [Hall _].
    apply Forall_cons in Hall as [Hlt _].
    destruct (Hin b) as [->|Hb]; [right; left|lia|lia]. }
  intros x Hx. destruct (detect_in_text text x Hx) as [->|Hlt]; assumption.
Qed.

Lemma resplit_not_nil (cs : Z) (chunk : str) : resplit cs [] chunk ≠ [].
Proof.
  destruct (too_big cs chunk) eqn:E.
  - destruct (resplit_big cs chunk E) as (_ & _ & front & body & ->).
    destruct front; discriminate.
  - rewrite (resplit_small cs chunk E). discriminate.
Qed.

(** At least one chunk is emitted. *)
Lemma create_not_nil : create_semantic_chunks self text ≠ [].
Proof.
  unfold create_semantic_chunks.
  destruct (reasonable (detect_section_boundaries text)).
  - rewrite fold_resplit. simpl.
    pose proof (length_boundary_chunks text (detect_section_boundaries text)) as Hlen.
    destruct (boundary_chunks text (detect_section_boundaries text))
      as [|chunk rest]; [discriminate|].
    cbn [map concat]. intros Heq. apply app_eq_nil in Heq as [Heq _].
    exact (resplit_not_nil _ _ Heq).
  - destruct (fallback_chunks_spec (chunk_size self) text)
      as (_ & _ & front & body & ->).
    destruct front; discriminate.
Qed.

End ChunkerPaths.

(** C3: for every text, the chunks of [create_semantic_chunks] cover the text
    from left to right: the text is cut into consecutive segments, one for
    each chunk in emission order, and each chunk is its segment, possibly
    followed by a separator that the packing appended; so no character of the
    text is dropped and at least one chunk is emitted.  On the boundary path
    the chunks between the boundaries concatenate to the text; on the
    fallback path the chunks concatenate to the text followed by one
    separator. *)
Theorem create_semantic_chunks_covers (self : PDFSummarizer) (text : str) :
  covers text (create_semantic_chunks self text)
  ∧ create_semantic_chunks self text ≠ []
  ∧ if reasonable (detect_section_boundaries text)
    then concat (boundary_chunks text (detect_section_boundaries text)) = text
         ∧ covers text (fold_left (resplit (chunk_size self))
                          (boundary_chunks text (detect_section_boundaries text)) [])
    else concat (create_semantic_chunks self text) = text ++ sep.
Proof.
  split; [apply chunks_cover|]. split.
  - apply create_not_nil.
  - destruct (reasonable (detect_section_boundaries text)) eqn:E.
    + split; [apply concat_detected_chunks|].
      rewrite <- (concat_detected_chunks text) at 1. apply covers_fold_resplit.
    + rewrite create_fallback_path by exact E.
      apply fallback_chunks_spec.
Qed.

Section Offsets.

(** Consecutive entries of a strictly increasing list increase. *)
Lemma increasing_lookup (l : list nat) (i : nat) (x y : nat) :
  increasing l → l !! i = Some x → l !! (i + 1) = Some y → x < y.
Proof.
  revert i. induction l as [|a l IH]; intros i Hs Hx Hy; [discriminate|].
  apply StronglySorted_cons in Hs as [Hall Hs].
  destruct i as [|i]; simpl in Hx, Hy.
  - injection Hx as <-. rewrite Forall_forall in Hall.
    apply Hall. apply list_elem_of_lookup. exists 0. exact Hy.
  - exact (IH i Hs Hx Hy).
Qed.

Lemma increasing_lookup_total (l : list nat) (i : nat) :
  increasing l → i + 1 < length l → l !!! i < l !!! (i + 1).
Proof.
  intros Hs Hi.
  destruct (lookup_lt_is_Some_2 l i ltac:(lia)) as [x Hx].
  destruct (lookup_lt_is_Some_2 l (i + 1) ltac:(lia)) as [y Hy].
  rewrite (list_lookup_total_correct l i x Hx).
  rewrite (list_lookup_total_correct l (i + 1) y Hy).
  exact (increasing_lookup l i x y Hs Hx Hy).
Qed.

Lemma last_lookup_total (l : list nat) :
  default 0 (last l) = l !!! (length l - 1).
Proof.
  rewrite last_lookup, list_lookup_total_alt.
  replace (pred (length l)) with (length l - 1) by lia. reflexivity.
Qed.

End Offsets.

(** C5: [create_semantic_chunks] takes the boundary path exactly when the
    number of boundaries is above 1 and below 30.  Then there is one chunk,
    before any re-split, for each boundary: the chunk of index [i] spans from
    the boundary [i] to the boundary [i + 1], which is strictly greater, and
    the last chunk spans from the last boundary to the end of the text.  With
    one boundary, or with 30 or more, the fallback packing of the paragraphs
    of the whole text is used. *)
Theorem create_semantic_chunks_path (self : PDFSummarizer) (text : str) :
  let boundaries := detect_section_boundaries text in
  let chunks := boundary_chunks text boundaries in
  (1 < length boundaries < 30 →
     reasonable boundaries = true
     ∧ create_semantic_chunks self text
         = fold_left (resplit (chunk_size self)) chunks []
     ∧ length chunks = length boundaries
     ∧ (∀ i, i + 1 < length boundaries →
          boundaries !!! i < boundaries !!! (i + 1)
          ∧ chunks !! i
              = Some (slice (boundaries !!! i) (boundaries !!! (i + 1)) text))
     ∧ chunks !! (length boundaries - 1)
         = Some (slice_from (boundaries !!! (length boundaries - 1)) text))
  ∧ (¬ (1 < length boundaries < 30) →
     reasonable boundaries = false
     ∧ (length boundaries = 1 ∨ 30 ≤ length boundaries)
     ∧ create_semantic_chunks self text
         = fallback_chunks (chunk_size self) text).
Proof.
  intros boundaries chunks. split.
  - intros Hrange.
    assert (reasonable boundaries = true) as Hr by (apply reasonable_iff, Hrange).
    split; [exact Hr|]. split; [|split; [|split]].
    + unfold create_semantic_chunks. fold boundaries. rewrite Hr. reflexivity.
    + unfold chunks. rewrite length_boundary_chunks. lia.
    + intros i Hi. split.
      * apply increasing_lookup_total; [apply detect_increasing|exact Hi].
      * apply lookup_boundary_chunks, Hi.
    + unfold chunks. rewrite lookup_boundary_chunks_last, last_lookup_total.
      reflexivity.
  - intros Hout.
    assert (reasonable boundaries = false) as Hr.
    { destruct (reasonable boundaries) eqn:E; [|reflexivity].
      apply reasonable_iff in E. contradiction. }
    split; [exact Hr|]. split.
    + destruct (detect_head text) as [rest Heq]. fold boundaries in Heq.
      rewrite Heq in Hout |- *. simpl in *. lia.
    + apply create_fallback_path, Hr.
Qed.

(** A text with a single header: two boundaries, hence the boundary path. *)
Lemma create_semantic_chunks_path_witness :
  create_semantic_chunks small_summarizer
    (py "aaaaaaaaa" ++ sep ++ py "bbbbbbbbb" ++ nl :: py "Section 1: x")
  = fold_left (resplit 10)
      (boundary_chunks
         (py "aaaaaaaaa" ++ sep ++ py "bbbbbbbbb" ++ nl :: py "Section 1: x")
         [0; 20]) [].
Proof.
  apply (create_semantic_chunks_path small_summarizer
           (py "aaaaaaaaa" ++ sep ++ py "bbbbbbbbb" ++ nl :: py "Section 1: x")).
  vm_compute. lia.
Defined.

(** C4, as amended: when the boundary path re-splits a chunk that is too big,
    every sub-chunk is emitted, ends with the separator that the packing
    appends, and has a length of at most [chunk_size + 1], unless it is a
    single paragraph of the chunk, of length at least [chunk_size], followed
    by the separator.  The sub-chunks concatenate to the chunk followed by
    one separator, so the last, partially filled one is emitted too. *)
Theorem resplit_sub_chunks_packed (self : PDFSummarizer) (text chunk : str) :
  reasonable (detect_section_boundaries text) = true →
  chunk ∈ boundary_chunks text (detect_section_boundaries text) →
  too_big (chunk_size self) chunk = true →
  (∀ sub, sub ∈ resplit (chunk_size self) [] chunk →
     sub ∈ create_semantic_chunks self text
     ∧ closed sub
     ∧ ((len sub ≤ chunk_size self + 1)%Z
        ∨ ∃ para, para ∈ split_sep chunk ∧ sub = para ++ sep
                  ∧ (chunk_size self ≤ len para)%Z))
  ∧ concat (resplit (chunk_size self) [] chunk) = chunk ++ sep
  ∧ ∃ front body, resplit (chunk_size self) [] chunk = front ++ [body ++ sep].
Proof.
  intros Hpath Hchunk Hbig.
  destruct (resplit_big (chunk_size self) chunk Hbig) as (Hall & Hcat & Hlast).
  split; [|split; assumption].
  intros sub Hsub. split.
  - rewrite create_boundary_path by exact Hpath.
    apply list_elem_of_In, in_concat.
    exists (resplit (chunk_size self) [] chunk). split.
    + apply in_map, list_elem_of_In, Hchunk.
    + apply list_elem_of_In, Hsub.
  - rewrite Forall_forall in Hall. exact (Hall sub Hsub).
Qed.

(** A section of two paragraphs of 9 characters, re-split for a target size
    of 10. *)
Lemma resplit_sub_chunks_packed_witness :
  (∀ sub,
     sub ∈ resplit 10 [] (py "aaaaaaaaa" ++ sep ++ py "bbbbbbbbb") →
     sub ∈ create_semantic_chunks small_summarizer
             (py "aaaaaaaaa" ++ sep ++ py "bbbbbbbbb" ++ nl :: py "Section 1: x")
     ∧ closed sub
     ∧ ((len sub ≤ 10 + 1)%Z
        ∨ ∃ para, para ∈ split_sep (py "aaaaaaaaa" ++ sep ++ py "bbbbbbbbb")
                  ∧ sub = para ++ sep ∧ (10 ≤ len para)%Z))
  ∧ concat (resplit 10 [] (py "aaaaaaaaa" ++ sep ++ py "bbbbbbbbb"))
      = (py "aaaaaaaaa" ++ sep ++ py "bbbbbbbbb") ++ sep
  ∧ ∃ front body,
      resplit 10 [] (py "aaaaaaaaa" ++ sep ++ py "bbbbbbbbb")
        = front ++ [body ++ sep].
Proof.
  apply (resplit_sub_chunks_packed small_summarizer
           (py "aaaaaaaaa" ++ sep ++ py "bbbbbbbbb" ++ nl :: py "Section 1: x")
           (py "aaaaaaaaa" ++ sep ++ py "bbbbbbbbb")).
  - reflexivity.
  - apply list_elem_of_In. vm_compute. left. reflexivity.
  - reflexivity.
Defined.

(** C4, as stated, fails: with a target size of 10, the section
    ["aaaaaaaaa\n\nbbbbbbbbb"] is re-split, and its first sub-chunk
    ["aaaaaaaaa\n\n"] has 11 characters, although it holds a single paragraph
    of 9 characters, which does not exceed the target size. *)
Lemma resplit_sub_chunk_exceeds_target :
  let text := py "aaaaaaaaa" ++ sep ++ py "bbbbbbbbb" ++ nl :: py "Section 1: x" in
  let chunk := py "aaaaaaaaa" ++ sep ++ py "bbbbbbbbb" in
  let sub := py "aaaaaaaaa" ++ sep in
  reasonable (detect_section_boundaries text) = true
  ∧ chunk ∈ boundary_chunks text (detect_section_boundaries text)
  ∧ too_big (chunk_size small_summarizer) chunk = true
  ∧ split_sep chunk = [py "aaaaaaaaa"; py "bbbbbbbbb"]
  ∧ sub ∈ resplit (chunk_size small_summarizer) [] chunk
  ∧ sub ∈ create_semantic_chunks small_summarizer text
  ∧ (chunk_size small_summarizer < len sub)%Z
  ∧ ¬ (∃ para, sub = para ++ sep ∧ (chunk_size small_summarizer < len para)%Z).
Proof.
  intros text chunk sub.
  split; [reflexivity|].
  split; [apply list_elem_of_In; vm_compute; left; reflexivity|].
  split; [reflexivity|].
  split; [reflexivity|].
  split; [apply list_elem_of_In; vm_compute; left; reflexivity|].
  split; [apply list_elem_of_In; vm_compute; left; reflexivity|].
  split; [reflexivity|].
  intros (para & Heq & Hlen).
  apply (f_equal len) in Heq. rewrite len_app in Heq.
  change (len sub) with 11%Z in Heq. change (len sep) with 2%Z in Heq.
  simpl in Hlen. lia.
Qed.

Section BigParagraph.

Variable cs : Z.
Variable para : str.
Hypothesis Hbig : (cs ≤ len para)%Z.

Lemma len_nonneg (s : str) : (0 ≤ len s)%Z.
Proof. unfold len. lia. Qed.

(** A paragraph of the target size or more is never packed with another. *)
Lemma big_never_fits (current_chunk : str) :
  fits cs current_chunk para = false.
Proof.
  unfold fits. apply Z.ltb_ge. pose proof (len_nonneg current_chunk). lia.
Qed.

Lemma big_never_extended (other : str) :
  fits cs (para ++ sep) other = false.
Proof.
  unfold fits. apply Z.ltb_ge. rewrite len_app, len_sep.
  pose proof (len_nonneg other). lia.
Qed.

Lemma resplit_loop_keeps_big (ps : list str) :
  ∀ (final_chunks : list str) (current_chunk : str)
    (final_chunks' : list str) (current_chunk' : str),
    resplit_loop cs ps final_chunks current_chunk
      = (final_chunks', current_chunk') →
    para ++ sep ∈ final_chunks ∨ current_chunk = para ++ sep ∨ para ∈ ps →
    para ++ sep ∈ final_chunks' ∨ current_chunk' = para ++ sep.
Proof.
  induction ps as [|q rest IH]; intros fc cur fc' cur' Hrun Hin;
    simpl in Hrun.
  - injection Hrun as <- <-.
    destruct Hin as [H|[H|H]]; [left; exact H|right; exact H|].
    exfalso. exact (not_elem_of_nil _ H).
  - destruct (fits cs cur q) eqn:Hfit.
    + apply (IH _ _ _ _ Hrun).
      destruct Hin as [H|[H|H]].
      * left. exact H.
      * subst cur. rewrite big_never_extended in Hfit. discriminate.
      * apply elem_of_cons in H as [Heq|H]; [subst q|].
        -- rewrite big_never_fits in Hfit. discriminate.
        -- right. right. exact H.
    + apply (IH _ _ _ _ Hrun).
      destruct Hin as [H|[H|H]].
      * left. destruct (truthy cur); [apply elem_of_app; left|]; exact H.
      * left. subst cur. rewrite truthy_closed by (exists para; reflexivity).
        apply elem_of_app. right. left.
      * apply elem_of_cons in H as [Heq|H]; [subst q|].
        -- right. left. reflexivity.
        -- right. right. exact H.
Qed.

Lemma fallback_loop_keeps_big (ps : list str) :
  ∀ (chunks : list str) (current_chunk : str)
    (chunks' : list str) (current_chunk' : str),
    fallback_loop cs ps chunks current_chunk = (chunks', current_chunk') →
    para ++ sep ∈ chunks ∨ current_chunk = para ++ sep ∨ para ∈ ps →
    para ++ sep ∈ chunks' ∨ current_chunk' = para ++ sep.
Proof.
  induction ps as [|q rest IH]; intros fc cur fc' cur' Hrun Hin;
    simpl in Hrun.
  - injection Hrun as <- <-.
    destruct Hin as [H|[H|H]]; [left; exact H|right; exact H|].
    exfalso. exact (not_elem_of_nil _ H).
  - destruct (fits cs cur q) eqn:Hfit.
    + apply (IH _ _ _ _ Hrun).
      destruct Hin as [H|[H|H]].
      * left. exact H.
      * subst cur. rewrite big_never_extended in Hfit. discriminate.
      * apply elem_of_cons in H as [Heq|H]; [subst q|].
        -- rewrite big_never_fits in Hfit. discriminate.
        -- right. right. exact H.
    + apply (IH _ _ _ _ Hrun).
      destruct Hin as [H|[H|H]].
      * left. apply elem_of_app. left. exact H.
      * left. subst cur. apply elem_of_app. right. left.
      * apply elem_of_cons in H as [Heq|H]; [subst q|].
        -- right. left. reflexivity.
        -- right. right. exact H.
Qed.

(** The re-split emits the paragraph whole, as one sub-chunk. *)
Lemma resplit_keeps_big (chunk : str) :
  too_big cs chunk = true → para ∈ split_sep chunk →
  para ++ sep ∈ resplit cs [] chunk.
Proof.
  intros Htb Hin. unfold resplit. rewrite Htb.
  destruct (resplit_loop cs (split_sep chunk) [] []) as [fc cur] eqn:E.
  destruct (resplit_loop_keeps_big _ _ _ _ _ E (or_intror (or_intror Hin)))
    as [H| ->].
  - destruct (truthy cur); [apply elem_of_app; left|]; exact H.
  - rewrite truthy_closed by (exists para; reflexivity).
    apply elem_of_app. right. left.
Qed.

(** The fallback packing emits the paragraph whole, as one chunk. *)
Lemma fallback_keeps_big (text : str) :
  para ∈ split_sep text → para ++ sep ∈ fallback_chunks cs text.
Proof.
  intros Hin. unfold fallback_chunks.
  destruct (fallback_loop cs (split_sep text) [] []) as [fc cur] eqn:E.
  destruct (fallback_loop_keeps_big _ _ _ _ _ E (or_intror (or_intror Hin)))
    as [H| ->].
  - destruct (truthy cur); [apply elem_of_app; left|]; exact H.
  - rewrite truthy_closed by (exists para; reflexivity).
    apply elem_of_app. right. left.
Qed.

End BigParagraph.

Section EdgeCases.

Variable self : PDFSummarizer.

(** The empty text has no paragraph but the empty one, which is packed
    when the target size is positive. *)
Lemma create_empty_text :
  (0 < chunk_size self)%Z → create_semantic_chunks self [] = [sep].
Proof.
  intros Hpos. unfold create_semantic_chunks.
  change (detect_section_boundaries []) with [0].
  cbn [reasonable length Nat.ltb Nat.leb andb].
  unfold fallback_chunks. cbn [split_sep fallback_loop].
  replace (fits (chunk_size self) [] []) with true; [reflexivity|].
  symmetry. apply Z.ltb_lt. exact Hpos.
Qed.

(** On the boundary path no chunk is empty. *)
Lemma boundary_path_not_nil (text : str) :
  reasonable (detect_section_boundaries text) = true →
  Forall (fun chunk => chunk ≠ []) (create_semantic_chunks self text).
Proof.
  intros Hpath. rewrite create_boundary_path by exact Hpath.
  apply reasonable_iff in Hpath as [Hlen _].
  pose proof (detected_inside text Hlen) as Hin.
  pose proof (detect_increasing text) as Hs.
  destruct (detect_head text) as [rest Heq]. rewrite Heq in *.
  pose proof (boundary_chunks_not_nil text 0 rest Hs Hin) as Hne.
  rewrite Forall_forall in Hne |- *.
  intros sub Hsub.
  apply list_elem_of_In, in_concat in Hsub as (subs & Hsubs & Hsub).
  apply in_map_iff in Hsubs as (chunk & <- & Hchunk).
  apply list_elem_of_In in Hchunk, Hsub.
  destruct (too_big (chunk_size self) chunk) eqn:E.
  - destruct (resplit_big _ _ E) as (Hall & _).
    rewrite Forall_forall in Hall.
    apply closed_not_nil, (Hall sub Hsub).
  - rewrite resplit_small in Hsub by exact E.
    apply list_elem_of_singleton in Hsub as ->. exact (Hne chunk Hchunk).
Qed.

End EdgeCases.

(** C9, as amended: on the empty text, for a positive target size,
    [create_semantic_chunks] yields a single chunk that holds the paragraph
    separator alone; on the boundary path no chunk is empty; and a paragraph
    of the target size or more is emitted whole, followed by the separator,
    as one chunk, by the fallback packing of the text and by the re-split of
    a section that is too big.  The function returns on every text. *)
Theorem create_semantic_chunks_edge_cases
    (self : PDFSummarizer) (text para : str) :
  ((0 < chunk_size self)%Z → create_semantic_chunks self [] = [sep])
  ∧ (reasonable (detect_section_boundaries text) = true →
     Forall (fun chunk => chunk ≠ []) (create_semantic_chunks self text))
  ∧ ((chunk_size self ≤ len para)%Z →
     reasonable (detect_section_boundaries text) = false →
     para ∈ split_sep text →
     para ++ sep ∈ create_semantic_chunks self text)
  ∧ ((chunk_size self ≤ len para)%Z →
     reasonable (detect_section_boundaries text) = true →
     ∀ chunk,
       chunk ∈ boundary_chunks text (detect_section_boundaries text) →
       too_big (chunk_size self) chunk = true →
       para ∈ split_sep chunk →
       para ++ sep ∈ create_semantic_chunks self text).
Proof.
  split; [apply create_empty_text|].
  split; [apply boundary_path_not_nil|].
  split.
  - intros Hbig Hpath Hin. rewrite create_fallback_path by exact Hpath.
    apply fallback_keeps_big; assumption.
  - intros Hbig Hpath chunk Hchunk Htb Hin.
    rewrite create_boundary_path by exact Hpath.
    apply list_elem_of_In, in_concat.
    exists (resplit (chunk_size self) [] chunk). split.
    + apply in_map, list_elem_of_In, Hchunk.
    + apply list_elem_of_In, resplit_keeps_big; assumption.
Qed.

(** The empty text, and a text of one paragraph of 12 characters, for a
    target size of 10. *)
Lemma create_semantic_chunks_edge_cases_witness :
  create_semantic_chunks small_summarizer [] = [sep]
  ∧ py "aaaaaaaaaaaa" ++ sep
      ∈ create_semantic_chunks small_summarizer (py "aaaaaaaaaaaa").
Proof.
  destruct (create_semantic_chunks_edge_cases small_summarizer
              (py "aaaaaaaaaaaa") (py "aaaaaaaaaaaa")) as (H1 & _ & H3 & _).
  split.
  - apply H1. reflexivity.
  - apply H3.
    + vm_compute. discriminate.
    + reflexivity.
    + apply list_elem_of_In. vm_compute. left. reflexivity.
Defined.

(** C9, as stated, fails: the empty text yields one chunk, and this chunk is
    not empty: it holds the separator that the packing appends. *)
Lemma empty_text_chunk_not_empty :
  create_semantic_chunks (new_summarizer example_llm_api) [] = [sep]
  ∧ create_semantic_chunks (new_summarizer example_llm_api) [] ≠ [[]].
Proof. split; [reflexivity|discriminate]. Qed.

(** The fallback loop appends [current_chunk] without testing it, unlike the
    loop of the boundary path: a first paragraph that does not fit sends the
    empty [current_chunk] of the start to the chunks. *)
Example fallback_emits_empty_chunk :
  create_semantic_chunks small_summarizer (py "aaaaaaaaaaaa")
  = [[]; py "aaaaaaaaaaaa" ++ sep].
Proof. reflexivity. Qed.

(** * Properties of the map stage *)

Section Sorting.

Lemma insert_by_key_perm (x : nat * str) (l : list (nat * str)) :
  insert_by_key x l ≡ₚ x :: l.
Proof.
  induction l as [|y l IH]; simpl; [reflexivity|].
  destruct (x.1 <=? y.1); [reflexivity|].
  rewrite IH. apply Permutation_swap.
Qed.

Lemma sort_by_key_perm (l : list (nat * str)) : sort_by_key l ≡ₚ l.
Proof.
  induction l as [|x l IH]; simpl; [reflexivity|].
  rewrite insert_by_key_perm, IH. reflexivity.
Qed.

Lemma insert_by_key_sorted (x : nat * str) (l : list (nat * str)) :
  StronglySorted key_le l → StronglySorted key_le (insert_by_key x l).
Proof.
  induction 1 as [|y l Hl IH Hy]; simpl; [repeat constructor|].
  destruct (x.1 <=? y.1) eqn:E.
  - apply Nat.leb_le in E. constructor; [constructor; assumption|].
    constructor; [exact E|].
    eapply Forall_impl; [exact Hy|]. unfold key_le. intros z Hz. lia.
  - apply Nat.leb_gt in E. constructor; [exact IH|].
    rewrite insert_by_key_perm. constructor; [unfold key_le; lia|exact Hy].
Qed.

Lemma sort_by_key_sorted (l : list (nat * str)) :
  StronglySorted key_le (sort_by_key l).
Proof.
  induction l as [|x l IH]; simpl; [constructor|].
  apply insert_by_key_sorted, IH.
Qed.

Lemma seq_sorted (j n : nat) : StronglySorted le (seq j n).
Proof.
  revert j. induction n as [|n IH]; intros j; simpl; constructor; [apply IH|].
  apply Forall_forall. intros x Hx. apply elem_of_seq in Hx. lia.
Qed.

(** Sorting index-tagged results restores the order of the indices,
    whatever the order in which they were appended. *)
Lemma sort_tagged (f : nat → str) (n : nat) (completion : list nat) :
  completion_order n completion →
  sort_by_key (map (fun i => (i, f i)) completion)
    = map (fun i => (i, f i)) (seq 0 n).
Proof.
  intros Hperm.
  apply (StronglySorted_unique_strong key_le).
  - intros x1 x2 H1 H2 H12 H21.
    rewrite sort_by_key_perm in H1.
    apply list_elem_of_In, in_map_iff in H1 as (i & <- & _).
    apply list_elem_of_In, in_map_iff in H2 as (j & <- & _).
    unfold key_le in *. simpl in *. assert (i = j) as -> by lia. reflexivity.
  - apply sort_by_key_sorted.
  - change (map ?g ?l) with (g <$> l).
    apply (StronglySorted_fmap _ le key_le); [|apply seq_sorted].
    intros x y Hxy. exact Hxy.
  - rewrite sort_by_key_perm. apply Permutation_map, Hperm.
Qed.

End Sorting.

Section MapStage.

Variable futures : list (outcome str).

(** The body of the loop never raises: an exception of the future is
    caught and recorded. *)
Lemma collect_returns (chunk_summaries : list (nat * str)) (i : nat) :
  i < length futures →
  collect futures chunk_summaries i = Returned (chunk_summaries ++ [tagged futures i]).
Proof.
  intros Hi. unfold collect, tagged.
  destruct (lookup_lt_is_Some_2 futures i Hi) as [future ->].
  destruct future; reflexivity.
Qed.

Lemma as_completed_loop_returns (completion : list nat) :
  ∀ chunk_summaries,
    Forall (fun i => i < length futures) completion →
    as_completed_loop futures completion chunk_summaries
      = Returned (chunk_summaries ++ map (tagged futures) completion).
Proof.
  induction completion as [|i rest IH]; intros acc Hall; simpl.
  - rewrite app_nil_r. reflexivity.
  - apply Forall_cons in Hall as [Hi Hall].
    rewrite collect_returns by exact Hi. simpl.
    rewrite IH by exact Hall. rewrite <- app_assoc. reflexivity.
Qed.

Lemma completion_in_range (completion : list nat) :
  completion_order (length futures) completion →
  Forall (fun i => i < length futures) completion.
Proof.
  intros Hperm. apply Forall_forall. intros i Hi.
  unfold completion_order in Hperm. rewrite Hperm in Hi.
  apply elem_of_seq in Hi. lia.
Qed.

Lemma tagged_seq :
  (map (tagged futures) (seq 0 (length futures))).*2 = map entry_of futures.
Proof.
  change (map ?g ?l) with (g <$> l).
  apply list_eq. intros i. rewrite !list_lookup_fmap.
  destruct (decide (i < length futures)) as [Hi|Hi].
  - rewrite lookup_seq_lt by exact Hi. simpl.
    destruct (lookup_lt_is_Some_2 futures i Hi) as [future ->]. reflexivity.
  - rewrite lookup_seq_ge by lia. rewrite lookup_ge_None_2 by lia. reflexivity.
Qed.

(** The summaries in source order, whatever the completion order. *)
Lemma sorted_summaries (completion : list nat) :
  completion_order (length futures) completion →
  (sort_by_key (map (tagged futures) completion)).*2 = map entry_of futures.
Proof.
  intros Hperm. unfold tagged.
  rewrite (sort_tagged
             (fun i => entry_of (default (Returned []) (futures !! i)))
             (length futures) completion Hperm).
  apply tagged_seq.
Qed.

End MapStage.

(** * Properties of [summarize_pdf] *)

Section Pipeline.

Variable self : PDFSummarizer.
Variable meta : gmap string pyval.
Variable is_financial : bool.

Lemma entries_of_futures (chunks : list str) :
  map entry_of (submit_all self chunks meta is_financial)
    = map (entry self meta is_financial) chunks.
Proof. unfold submit_all. rewrite map_map. reflexivity. Qed.

Lemma length_submit_all (chunks : list str) :
  length (submit_all self chunks meta is_financial) = length chunks.
Proof. unfold submit_all. apply length_map. Qed.

(** With a pool of at least one worker, the map stage returns one result
    for each completed future: no exception leaves it. *)
Lemma map_stage_returns (completion : list nat) (chunks : list str) :
  (0 < max_workers self)%Z →
  completion_order (length chunks) completion →
  map_stage self completion chunks meta is_financial
    = Returned (map (tagged (submit_all self chunks meta is_financial))
                    completion).
Proof.
  intros Hpool Hperm. unfold map_stage, thread_pool_executor.
  replace (max_workers self <=? 0)%Z with false
    by (symmetry; apply Z.leb_gt; exact Hpool).
  simpl. rewrite <- length_submit_all in Hperm.
  rewrite as_completed_loop_returns by (apply completion_in_range, Hperm).
  reflexivity.
Qed.

(** The summaries handed to the Reducer are the entries of the chunks in
    source order. *)
Lemma map_stage_summaries (completion : list nat) (chunks : list str) :
  completion_order (length chunks) completion →
  (sort_by_key (map (tagged (submit_all self chunks meta is_financial))
                    completion)).*2
    = map (entry self meta is_financial) chunks.
Proof.
  intros Hperm. rewrite <- length_submit_all in Hperm.
  rewrite sorted_summaries by exact Hperm. apply entries_of_futures.
Qed.

(** [summarize_pdf] is the Reducer applied to the entries of the chunks,
    whatever the completion order and the size of the pool. *)
Lemma summarize_pdf_unfold (completion : list nat) (text : str) :
  (0 < max_workers self)%Z →
  completion_order (length (create_semantic_chunks self text)) completion →
  summarize_pdf self completion text meta is_financial
    = (final_summary ←
         summarize_summaries self
           (map (entry self meta is_financial)
                (create_semantic_chunks self text))
           meta is_financial;
       mret {| metadata := meta;
               chunk_count := length (create_semantic_chunks self text);
               section_summaries :=
                 map (entry self meta is_financial)
                     (create_semantic_chunks self text);
               final_summary := final_summary |}).
Proof.
  intros Hpool Hperm. unfold summarize_pdf.
  rewrite map_stage_returns by assumption. simpl.
  rewrite map_stage_summaries by exact Hperm. reflexivity.
Qed.

End Pipeline.

(** C1: for every text, metadata and capability, with a pool of at least one
    worker and whatever the order in which the futures complete, the map
    stage returns, and the summaries, sorted, are the entries of the chunks
    of [create_semantic_chunks] in source order: the summary of the chunk, or
    the placeholder of its error.  When the combining call returns,
    [summarize_pdf] returns the record of these entries; and every record it
    returns has [chunk_count] equal to the number of chunks, [chunk_count]
    entries in [section_summaries], and the entry of the [i]-th chunk at
    index [i]. *)
Theorem summarize_pdf_index_fidelity
    (self : PDFSummarizer) (completion : list nat) (text : str)
    (meta : gmap string pyval) (is_financial : bool) :
  (0 < max_workers self)%Z →
  completion_order (length (create_semantic_chunks self text)) completion →
  let chunks := create_semantic_chunks self text in
  let entries := map (entry self meta is_financial) chunks in
  (∃ chunk_summaries,
     map_stage self completion chunks meta is_financial
       = Returned chunk_summaries
     ∧ (sort_by_key chunk_summaries).*2 = entries)
  ∧ (∀ final,
       summarize_summaries self entries meta is_financial = Returned final →
       summarize_pdf self completion text meta is_financial
         = Returned {| metadata := meta;
                       chunk_count := length chunks;
                       section_summaries := entries;
                       final_summary := final |})
  ∧ (∀ result,
       summarize_pdf self completion text meta is_financial = Returned result →
       chunk_count result = length chunks
       ∧ length (section_summaries result) = chunk_count result
       ∧ ∀ i chunk,
           chunks !! i = Some chunk →
           section_summaries result !! i
             = Some (entry self meta is_financial chunk)).
Proof.
  intros Hpool Hperm chunks entries.
  pose proof (summarize_pdf_unfold self meta is_financial completion text
                Hpool Hperm) as Hpdf.
  fold chunks in Hpdf. fold entries in Hpdf.
  split; [|split].
  - eexists. split; [apply map_stage_returns; assumption|].
    apply map_stage_summaries, Hperm.
  - intros final Hfinal. rewrite Hpdf, Hfinal. reflexivity.
  - intros result Hresult. rewrite Hpdf in Hresult.
    destruct (summarize_summaries self entries meta is_financial)
      as [final|e]; [|discriminate].
    injection Hresult as <-. simpl.
    split; [reflexivity|]. split; [apply length_map|].
    intros i chunk Hi. unfold entries.
    change (map ?g ?l) with (g <$> l).
    rewrite list_lookup_fmap, Hi. reflexivity.
Qed.

(** Two chunks, the second completing first. *)
Lemma summarize_pdf_index_fidelity_witness :
  ∃ final,
    summarize_pdf small_summarizer [1; 0] (py "aaaa" ++ sep ++ py "bbbb") ∅ true
    = Returned
        {| metadata := ∅;
           chunk_count := 2;
           section_summaries :=
             [entry small_summarizer ∅ true (py "aaaa" ++ sep);
              entry small_summarizer ∅ true (py "bbbb" ++ sep)];
           final_summary := final |}.
Proof.
  destruct (summarize_pdf_index_fidelity small_summarizer [1; 0]
              (py "aaaa" ++ sep ++ py "bbbb") ∅ true)
    as (_ & Hrecord & _).
  - reflexivity.
  - apply Permutation_swap.
  - eexists. apply Hrecord. reflexivity.
Defined.

(** C2: if the capability raises an exception [e] for the chunk of index
    [k], then, with a pool of at least one worker and whatever the completion
    order, the map stage still returns: the exception does not leave it and
    the other chunks are still summarised.  The summaries have one entry for
    each of the [N] chunks; the entry of index [k] is the placeholder
    ["[Error summarizing this section: e]"], and the entry of every chunk
    whose summarisation returns is its summary.  The Reducer is applied to
    all these entries: [summarize_pdf] is its outcome, and when the combining
    call returns, it is a record with [chunk_count = N]. *)
Theorem summarize_pdf_isolates_failure
    (self : PDFSummarizer) (completion : list nat) (text : str)
    (meta : gmap string pyval) (is_financial : bool)
    (k : nat) (failing : str) (e : exn) :
  (0 < max_workers self)%Z →
  completion_order (length (create_semantic_chunks self text)) completion →
  create_semantic_chunks self text !! k = Some failing →
  summarize_chunk self failing meta is_financial = Raised e →
  let chunks := create_semantic_chunks self text in
  ∃ chunk_summaries summaries,
    map_stage self completion chunks meta is_financial
      = Returned chunk_summaries
    ∧ summaries = (sort_by_key chunk_summaries).*2
    ∧ length summaries = length chunks
    ∧ summaries !! k
        = Some (py "[Error summarizing this section: " ++ exn_str e ++ py "]")
    ∧ (∀ j chunk summary,
         chunks !! j = Some chunk →
         summarize_chunk self chunk meta is_financial = Returned summary →
         summaries !! j = Some summary)
    ∧ summarize_pdf self completion text meta is_financial
        = (final ← summarize_summaries self summaries meta is_financial;
           mret {| metadata := meta;
                   chunk_count := length chunks;
                   section_summaries := summaries;
                   final_summary := final |})
    ∧ (∀ final,
         summarize_summaries self summaries meta is_financial = Returned final →
         ∃ result,
           summarize_pdf self completion text meta is_financial = Returned result
           ∧ chunk_count result = length chunks
           ∧ section_summaries result = summaries).
Proof.
  intros Hpool Hperm Hk Hraise chunks.
  exists (map (tagged (submit_all self chunks meta is_financial)) completion),
         (map (entry self meta is_financial) chunks).
  assert (Hlookup : ∀ j chunk,
             chunks !! j = Some chunk →
             map (entry self meta is_financial) chunks !! j
               = Some (entry self meta is_financial chunk)).
  { intros j chunk Hj. change (map ?g ?l) with (g <$> l).
    rewrite list_lookup_fmap, Hj. reflexivity. }
  pose proof (summarize_pdf_unfold self meta is_financial completion text
                Hpool Hperm) as Hpdf.
  split; [apply map_stage_returns; assumption|].
  split; [symmetry; apply map_stage_summaries, Hperm|].
  split; [apply length_map|].
  split; [rewrite (Hlookup k failing Hk); unfold entry; rewrite Hraise;
          reflexivity|].
  split; [intros j chunk summary Hj Hret; rewrite (Hlookup j chunk Hj);
          unfold entry; rewrite Hret; reflexivity|].
  split; [exact Hpdf|].
  intros final Hfinal. eexists. rewrite Hpdf. fold chunks. rewrite Hfinal.
  split; [reflexivity|]. split; reflexivity.
Qed.

(** Two chunks; the capability fails on the first, which completes last. *)
Lemma summarize_pdf_isolates_failure_witness :
  let self := {| llm_api := flaky_api; chunk_size := 6; overlap := 200;
                 max_workers := 2 |} in
  let text := py "boom" ++ sep ++ py "fine" in
  create_semantic_chunks self text = [py "boom" ++ sep; py "fine" ++ sep]
  ∧ ∃ summaries result,
      length summaries = 2
      ∧ summaries !! 0 = Some (py "[Error summarizing this section: timeout]")
      ∧ summarize_pdf self [1; 0] text ∅ true = Returned result
      ∧ chunk_count result = 2
      ∧ section_summaries result = summaries.
Proof.
  intros self text. split; [reflexivity|].
  destruct (summarize_pdf_isolates_failure self [1; 0] text ∅ true 0
              (py "boom" ++ sep) (Exception (py "timeout")))
    as (chunk_summaries & summaries & Hmap & Hsum & Hlen & Hk & _ & _ & Hrecord).
  - reflexivity.
  - apply Permutation_swap.
  - reflexivity.
  - reflexivity.
  - vm_compute in Hmap. injection Hmap as <-. subst summaries.
    edestruct Hrecord as (result & Hpdf & Hcount & Hsections);
      [vm_compute; reflexivity|].
    eexists. exists result.
    split; [exact Hlen|]. split; [exact Hk|]. split; [exact Hpdf|].
    split; [exact Hcount|exact Hsections].
Defined.

(** C6: if the map stage has returned and the combining call of the Reducer
    raises an exception [e], then [summarize_pdf] raises [e]: the exception
    reaches the caller, and no record is returned, be it with an empty or a
    placeholder [final_summary]. *)
Theorem summarize_pdf_reduce_failure
    (self : PDFSummarizer) (completion : list nat) (text : str)
    (meta : gmap string pyval) (is_financial : bool)
    (chunk_summaries : list (nat * str)) (e : exn) :
  map_stage self completion (create_semantic_chunks self text) meta is_financial
    = Returned chunk_summaries →
  summarize_summaries self (sort_by_key chunk_summaries).*2 meta is_financial
    = Raised e →
  summarize_pdf self completion text meta is_financial = Raised e
  ∧ ∀ result,
      summarize_pdf self completion text meta is_financial ≠ Returned result.
Proof.
  intros Hmap Hreduce.
  assert (summarize_pdf self completion text meta is_financial = Raised e) as H.
  { unfold summarize_pdf. rewrite Hmap. simpl. rewrite Hreduce. reflexivity. }
  split; [exact H|]. intros result. rewrite H. discriminate.
Qed.

(** The capability answers for the two chunks and fails on the prompt of the
    Reducer. *)
Lemma summarize_pdf_reduce_failure_witness :
  summarize_pdf
    {| llm_api := failing_reducer_api; chunk_size := 10; overlap := 200;
       max_workers := 4 |}
    [1; 0] (py "aaaa" ++ sep ++ py "bbbb") ∅ true
  = Raised (Exception (py "rate limit exceeded")).
Proof.
  eapply (summarize_pdf_reduce_failure
            {| llm_api := failing_reducer_api; chunk_size := 10;
               overlap := 200; max_workers := 4 |}
            [1; 0] (py "aaaa" ++ sep ++ py "bbbb") ∅ true).
  - vm_compute. reflexivity.
  - vm_compute. reflexivity.
Defined.

(** C7: for a fixed text, fixed metadata and a capability that is a function
    of the prompt, two runs of [summarize_pdf] have the same outcome, hence
    the same [section_summaries], in content and in order, and the same
    [final_summary], whatever the order in which the futures complete in
    each run and whatever the sizes of the two pools, as long as each pool
    has a worker; in particular for one worker in one run and as many workers
    as chunks in the other. *)
Theorem summarize_pdf_deterministic
    (self1 self2 : PDFSummarizer) (completion1 completion2 : list nat)
    (text : str) (meta : gmap string pyval) (is_financial : bool) :
  llm_api self1 = llm_api self2 →
  chunk_size self1 = chunk_size self2 →
  completion_order (length (create_semantic_chunks self1 text)) completion1 →
  completion_order (length (create_semantic_chunks self2 text)) completion2 →
  ((0 < max_workers self1)%Z → (0 < max_workers self2)%Z →
   summarize_pdf self1 completion1 text meta is_financial
     = summarize_pdf self2 completion2 text meta is_financial)
  ∧ (max_workers self1 = 1%Z →
     max_workers self2
       = Z.of_nat (length (create_semantic_chunks self2 text)) →
     summarize_pdf self1 completion1 text meta is_financial
       = summarize_pdf self2 completion2 text meta is_financial).
Proof.
  intros Hapi Hsize Hperm1 Hperm2.
  assert (Hsame : (0 < max_workers self1)%Z → (0 < max_workers self2)%Z →
            summarize_pdf self1 completion1 text meta is_financial
              = summarize_pdf self2 completion2 text meta is_financial).
  { intros Hpool1 Hpool2.
    rewrite (summarize_pdf_unfold self1 meta is_financial completion1 text
               Hpool1 Hperm1).
    rewrite (summarize_pdf_unfold self2 meta is_financial completion2 text
               Hpool2 Hperm2).
    unfold create_semantic_chunks, entry, summarize_summaries, summarize_chunk.
    rewrite Hapi, Hsize. reflexivity. }
  split; [exact Hsame|].
  intros Hone Hmany. apply Hsame; [lia|].
  pose proof (create_not_nil self2 text) as Hne.
  destruct (create_semantic_chunks self2 text); [contradiction|].
  rewrite Hmany. simpl. lia.
Qed.

(** One worker and the completion order 0, 1 against two workers, as many as
    chunks, and the completion order 1, 0. *)
Lemma summarize_pdf_deterministic_witness :
  summarize_pdf
    {| llm_api := example_llm_api; chunk_size := 10; overlap := 200;
       max_workers := 1 |}
    [0; 1] (py "aaaa" ++ sep ++ py "bbbb") ∅ true
  = summarize_pdf
      {| llm_api := example_llm_api; chunk_size := 10; overlap := 200;
         max_workers := 2 |}
      [1; 0] (py "aaaa" ++ sep ++ py "bbbb") ∅ true.
Proof.
  apply summarize_pdf_deterministic.
  - reflexivity.
  - reflexivity.
  - apply Permutation_refl.
  - apply Permutation_swap.
  - reflexivity.
  - reflexivity.
Defined.

(** C10: two summarisers that differ only in [overlap] produce the same
    chunks and the same outcome of [summarize_pdf], for every text, metadata,
    capability and completion order: no operation reads the parameter.  The
    chunks never share characters of the document: the text is cut into
    consecutive segments, one for each chunk, and a chunk holds its segment
    and at most a separator appended by the packing. *)
Theorem overlap_has_no_effect
    (self1 self2 : PDFSummarizer) (completion : list nat) (text : str)
    (meta : gmap string pyval) (is_financial : bool) :
  llm_api self1 = llm_api self2 →
  chunk_size self1 = chunk_size self2 →
  max_workers self1 = max_workers self2 →
  create_semantic_chunks self1 text = create_semantic_chunks self2 text
  ∧ summarize_pdf self1 completion text meta is_financial
      = summarize_pdf self2 completion text meta is_financial
  ∧ ∃ segments,
      concat segments = text
      ∧ Forall2 (fun segment chunk => chunk = segment ∨ chunk = segment ++ sep)
                segments (create_semantic_chunks self1 text).
Proof.
  intros Hapi Hsize Hpool.
  split; [|split].
  - unfold create_semantic_chunks. rewrite Hsize. reflexivity.
  - unfold summarize_pdf, map_stage, submit_all, summarize_summaries,
      summarize_chunk, create_semantic_chunks.
    rewrite Hapi, Hsize, Hpool. reflexivity.
  - exact (chunks_cover self1 text).
Qed.

(** An overlap of 200 against an overlap of 0. *)
Lemma overlap_has_no_effect_witness :
  create_semantic_chunks small_summarizer (py "aaaa" ++ sep ++ py "bbbb")
  = create_semantic_chunks
      {| llm_api := example_llm_api; chunk_size := 10; overlap := 0;
         max_workers := 4 |}
      (py "aaaa" ++ sep ++ py "bbbb").
Proof.
  apply (overlap_has_no_effect small_summarizer
           {| llm_api := example_llm_api; chunk_size := 10; overlap := 0;
              max_workers := 4 |}
           [0; 1] (py "aaaa" ++ sep ++ py "bbbb") ∅ true);
    reflexivity.
Defined.

(** * Further properties of the Segmenter *)

Section Matcher.





(** A pattern that starts with [\n] only matches at a line break. *)
Lemma rmatch_newline_first (r : regex) (s : str) :
  rmatch (RSeq newline r) s ≠ [] → head s = Some nl.
Proof.
  intros Hne. cbn [rmatch newline] in Hne.
  destruct s as [|c s]; [contradiction|].
  destruct (Ascii.eqb nl c) eqn:E; [|contradiction].
  apply Ascii.eqb_eq in E as <-. reflexivity.
Qed.

End Matcher.

Section Finditer.

Variable r : regex.


(** Every offset that [finditer] reports is the start of a match. *)
Lemma finditer_from_matches (s : str) :
  ∀ pos skip x, x ∈ finditer_from r pos skip s →
    pos ≤ x ∧ rmatch r (drop (x - pos) s) ≠ [].
Proof.
  induction s as [|c s IH]; intros pos skip x Hx.
  - destruct skip; cbn [finditer_from] in Hx.
    + destruct (rmatch r []) eqn:E; [destruct (not_elem_of_nil _ Hx)|].
      apply list_elem_of_singleton in Hx as ->.
      rewrite Nat.sub_diag. simpl. rewrite E. split; [lia|discriminate].
    + destruct (not_elem_of_nil _ Hx).
  - assert (Hrec : ∀ pos' skip', pos' = S pos →
              x ∈ finditer_from r pos' skip' s →
              pos ≤ x ∧ rmatch r (drop (x - pos) (c :: s)) ≠ []).
    { intros pos' skip' -> H. apply IH in H as [Hle Hm].
      split; [lia|]. replace (x - pos) with (S (x - S pos)) by lia. exact Hm. }
    destruct skip as [|k]; cbn [finditer_from] in Hx.
    + destruct (rmatch r (c :: s)) eqn:E.
      * exact (Hrec _ _ eq_refl Hx).
      * apply elem_of_cons in Hx as [->|Hx]; [|exact (Hrec _ _ eq_refl Hx)].
        rewrite Nat.sub_diag. simpl. rewrite E. split; [lia|discriminate].
    + exact (Hrec _ _ eq_refl Hx).
Qed.


End Finditer.

Section HeaderOffsets.

Lemma patterns_start_with_newline :
  Forall (fun pattern => ∃ r, pattern = RSeq newline r) patterns.
Proof. repeat constructor; eexists; reflexivity. Qed.

Lemma header_offsets_elem (text : str) (b : nat) :
  b ∈ header_offsets text ↔
    ∃ pattern, pattern ∈ patterns ∧ b ∈ finditer_starts pattern text.
Proof.
  unfold header_offsets. rewrite list_elem_of_In, in_concat. split.
  - intros (l & Hl & Hb). apply in_map_iff in Hl as (p & <- & Hp).
    exists p. split; apply list_elem_of_In; assumption.
  - intros (p & Hp & Hb). exists (finditer_starts p text). split.
    + apply in_map_iff. exists p. split; [reflexivity|].
      apply list_elem_of_In, Hp.
    + apply list_elem_of_In, Hb.
Qed.

(** Every offset found by a header pattern is the offset of a line break. *)
Lemma header_offset_newline (text : str) (b : nat) :
  b ∈ header_offsets text → text !! b = Some nl.
Proof.
  intros Hb. apply header_offsets_elem in Hb as (p & Hp & Hb).
  pose proof patterns_start_with_newline as Hform.
  rewrite Forall_forall in Hform. destruct (Hform p Hp) as [r ->].
  apply finditer_from_matches in Hb as [_ Hm].
  rewrite Nat.sub_0_r in Hm.
  apply rmatch_newline_first in Hm.
  rewrite <- Hm. clear. revert b.
  induction text as [|c text IH]; intros [|b]; simpl; auto.
Qed.

Lemma no_newline_no_header (text : str) :
  nl ∉ text → header_offsets text = [].
Proof.
  intros Hnl. destruct (header_offsets text) as [|b l] eqn:E; [reflexivity|].
  exfalso. apply Hnl.
  assert (b ∈ header_offsets text) as Hb by (rewrite E; left).
  apply header_offset_newline in Hb.
  apply list_elem_of_lookup. exists b. exact Hb.
Qed.

Lemma split_sep_no_newline (text : str) :
  nl ∉ text → split_sep text = [text].
Proof.
  induction text as [|c text IH]; intros Hnl; [reflexivity|].
  apply not_elem_of_cons in Hnl as [Hc Hnl].
  destruct text as [|c' text]; [reflexivity|].
  rewrite split_sep_step, (IH Hnl).
  destruct (Ascii.eqb c nl) eqn:E; [|reflexivity].
  apply Ascii.eqb_eq in E. congruence.
Qed.

Lemma boundary_offset_newline (text : str) (b : nat) :
  b ∈ detect_section_boundaries text → b ≠ 0 → text !! b = Some nl.
Proof.
  intros Hb Hne. apply detect_elem_of in Hb as [->|Hb]; [contradiction|].
  apply header_offset_newline, Hb.
Qed.

End HeaderOffsets.

(** X1: every section boundary other than the offset 0 is the offset of a
    line break of the text: the header patterns all start with [\n], so a
    section starts with the line break that precedes its header. *)
Theorem boundaries_at_line_breaks (text : str) (b : nat) :
  b ∈ detect_section_boundaries text → b ≠ 0 → text !! b = Some nl.
Proof. apply boundary_offset_newline. Qed.

(** The header of the text below is found at the offset 20, a line break. *)
Lemma boundaries_at_line_breaks_witness :
  (py "aaaaaaaaa" ++ sep ++ py "bbbbbbbbb" ++ nl :: py "Section 1: x") !! 20
  = Some nl.
Proof.
  apply boundaries_at_line_breaks.
  - apply list_elem_of_In. vm_compute. right. left. reflexivity.
  - discriminate.
Defined.

(** X2: a text without a line break has no header, whatever it says, and is
    a single paragraph: its only boundary is the offset 0, and its chunks
    are the text followed by the separator, after an empty chunk when the
    text is not shorter than [chunk_size]. *)
Theorem single_line_document (self : PDFSummarizer) (text : str) :
  nl ∉ text →
  detect_section_boundaries text = [0]
  ∧ create_semantic_chunks self text
      = if (len text <? chunk_size self)%Z then [text ++ sep]
        else [[]; text ++ sep].
Proof.
  intros Hnl.
  assert (detect_section_boundaries text = [0]) as Hdetect.
  { unfold detect_section_boundaries.
    rewrite (no_newline_no_header text Hnl). reflexivity. }
  split; [exact Hdetect|].
  unfold create_semantic_chunks. rewrite Hdetect.
  cbn [reasonable length Nat.ltb Nat.leb andb].
  unfold fallback_chunks. rewrite (split_sep_no_newline text Hnl).
  cbn [fallback_loop]. unfold fits. change (len []) with 0%Z.
  rewrite Z.add_0_l.
  destruct (len text <? chunk_size self)%Z;
    cbn [app]; rewrite (truthy_closed (text ++ sep)) by (exists text; reflexivity);
    reflexivity.
Qed.

(** A header on the only line of a document is not detected. *)
Lemma single_line_document_witness :
  detect_section_boundaries (py "Section 1: Introduction") = [0]
  ∧ create_semantic_chunks small_summarizer (py "Section 1: Introduction")
    = [[]; py "Section 1: Introduction" ++ sep].
Proof.
  apply (single_line_document small_summarizer (py "Section 1: Introduction")).
  intros Hin. apply list_elem_of_In in Hin. vm_compute in Hin.
  repeat (destruct Hin as [Hin|Hin]; [discriminate|]). exact Hin.
Defined.



(** * Further properties of the Chunker *)

Section FallbackLoop.

Variable cs : Z.

(** Once [current_chunk] is closed, the fallback loop only appends closed
    chunks. *)
Lemma fallback_loop_closed (ps : list str) :
  ∀ chunks current_chunk chunks' current_chunk',
    closed current_chunk →
    fallback_loop cs ps chunks current_chunk = (chunks', current_chunk') →
    ∃ subs, chunks' = chunks ++ subs ∧ Forall closed subs
            ∧ closed current_chunk'.
Proof.
  induction ps as [|para rest IH]; intros fc cur fc' cur' Hcl Hrun;
    simpl in Hrun.
  - injection Hrun as <- <-. exists []. rewrite app_nil_r.
    split; [reflexivity|]. split; [constructor|exact Hcl].
  - destruct (fits cs cur para).
    + apply (IH _ _ _ _) in Hrun; [exact Hrun|].
      exists (cur ++ para). rewrite <- app_assoc. reflexivity.
    + apply (IH _ _ _ _) in Hrun as (subs & -> & Hall & Hcl');
        [|exists para; reflexivity].
      exists (cur :: subs). rewrite <- app_assoc.
      split; [reflexivity|]. split; [constructor; assumption|exact Hcl'].
Qed.

(** When everything fits, the loop appends nothing. *)
Lemma fallback_loop_all_fit (ps : list str) :
  ∀ chunks current_chunk,
    ps ≠ [] →
    (len current_chunk + len (terminated ps) < cs + 2)%Z →
    fallback_loop cs ps chunks current_chunk
      = (chunks, current_chunk ++ terminated ps).
Proof.
  induction ps as [|para rest IH]; intros fc cur Hne Hlen; [contradiction|].
  unfold terminated in Hlen. cbn [map concat] in Hlen.
  rewrite !len_app, len_sep in Hlen. fold (terminated rest) in Hlen.
  pose proof (len_nonneg (terminated rest)) as Hpos.
  cbn [fallback_loop]. unfold fits.
  replace (len cur + len para <? cs)%Z with true
    by (symmetry; apply Z.ltb_lt; lia).
  unfold terminated. cbn [map concat]. fold (terminated rest).
  destruct rest as [|para' rest'].
  - cbn [fallback_loop]. unfold terminated. simpl.
    rewrite <- !app_assoc. reflexivity.
  - rewrite IH; [rewrite <- !app_assoc; reflexivity|discriminate|].
    rewrite !len_app, len_sep. lia.
Qed.

(** When the loop appends nothing, everything fitted. *)
Lemma fallback_loop_none_appended (ps : list str) :
  ∀ chunks current_chunk current_chunk',
    ps ≠ [] →
    fallback_loop cs ps chunks current_chunk = (chunks, current_chunk') →
    (len current_chunk + len (terminated ps) < cs + 2)%Z.
Proof.
  induction ps as [|para rest IH]; intros fc cur cur' Hne Hrun;
    [contradiction|].
  cbn [fallback_loop] in Hrun.
  unfold terminated. cbn [map concat]. fold (terminated rest).
  rewrite !len_app, len_sep.
  destruct (fits cs cur para) eqn:Hfit.
  - unfold fits in Hfit. apply Z.ltb_lt in Hfit.
    destruct rest as [|para' rest'].
    + change (len (terminated [])) with 0%Z. lia.
    + apply IH in Hrun; [|discriminate].
      rewrite !len_app, len_sep in Hrun. lia.
  - exfalso.
    apply fallback_loop_closed in Hrun as (subs & Heq & _);
      [|exists para; reflexivity].
    apply (f_equal length) in Heq. rewrite !length_app in Heq.
    simpl in Heq. lia.
Qed.

End FallbackLoop.

(** X4: on the fallback path every chunk is empty, or it ends with the
    separator and has at most [chunk_size + 1] characters, unless it is a
    single paragraph of the text, of [chunk_size] characters or more,
    followed by the separator. *)
Theorem fallback_chunk_sizes (self : PDFSummarizer) (text chunk : str) :
  reasonable (detect_section_boundaries text) = false →
  chunk ∈ create_semantic_chunks self text →
  chunk = []
  ∨ (closed chunk
     ∧ ((len chunk ≤ chunk_size self + 1)%Z
        ∨ ∃ para, para ∈ split_sep text ∧ chunk = para ++ sep
                  ∧ (chunk_size self ≤ len para)%Z)).
Proof.
  intros Hpath Hin. rewrite create_fallback_path in Hin by exact Hpath.
  destruct (fallback_chunks_spec (chunk_size self) text) as (Hall & _).
  rewrite Forall_forall in Hall. exact (Hall chunk Hin).
Qed.

(** Three paragraphs packed for a target size of 10. *)
Lemma fallback_chunk_sizes_witness :
  closed (py "aaaa" ++ sep ++ py "bb" ++ sep)
  ∧ ((len (py "aaaa" ++ sep ++ py "bb" ++ sep) ≤ 10 + 1)%Z
     ∨ ∃ para,
         para ∈ split_sep (py "aaaa" ++ sep ++ py "bb" ++ sep ++ py "cccccc")
         ∧ py "aaaa" ++ sep ++ py "bb" ++ sep = para ++ sep
         ∧ (10 ≤ len para)%Z).
Proof.
  destruct (fallback_chunk_sizes small_summarizer
              (py "aaaa" ++ sep ++ py "bb" ++ sep ++ py "cccccc")
              (py "aaaa" ++ sep ++ py "bb" ++ sep)) as [H|H].
  - reflexivity.
  - apply list_elem_of_In. vm_compute. left. reflexivity.
  - discriminate.
  - exact H.
Defined.

(** X5: on the fallback path an empty chunk is emitted exactly when the
    first paragraph of the text does not fit, that is when it has
    [chunk_size] characters or more; it is then the first chunk, and no other
    chunk is ever empty. *)
Theorem fallback_empty_chunk (self : PDFSummarizer) (text : str) :
  reasonable (detect_section_boundaries text) = false →
  ∃ first others,
    split_sep text = first :: others
    ∧ if (len first <? chunk_size self)%Z
      then Forall (fun chunk => chunk ≠ []) (create_semantic_chunks self text)
      else ∃ rest,
             create_semantic_chunks self text = [] :: rest
             ∧ Forall (fun chunk => chunk ≠ []) rest.
Proof.
  intros Hpath. rewrite create_fallback_path by exact Hpath.
  pose proof (split_sep_not_nil text) as Hne.
  unfold fallback_chunks.
  destruct (split_sep text) as [|first others]; [contradiction|].
  exists first, others. split; [reflexivity|].
  cbn [fallback_loop]. unfold fits. change (len []) with 0%Z.
  rewrite Z.add_0_l.
  assert (Hnonempty : ∀ l : list str, Forall closed l →
            Forall (fun chunk : str => chunk ≠ []) l).
  { intros l Hl. eapply Forall_impl; [exact Hl|].
    intros c. apply closed_not_nil. }
  destruct (len first <? chunk_size self)%Z.
  - destruct (fallback_loop (chunk_size self) others [] ([] ++ first ++ sep))
      as [fc cur] eqn:E.
    apply fallback_loop_closed in E as (subs & -> & Hall & Hcl);
      [|exists first; reflexivity].
    rewrite (truthy_closed cur Hcl). apply Hnonempty.
    apply Forall_app. split; [exact Hall|]. constructor; [exact Hcl|constructor].
  - destruct (fallback_loop (chunk_size self) others ([] ++ [[]]) (first ++ sep))
      as [fc cur] eqn:E.
    apply fallback_loop_closed in E as (subs & -> & Hall & Hcl);
      [|exists first; reflexivity].
    rewrite (truthy_closed cur Hcl). exists (subs ++ [cur]).
    split; [reflexivity|]. apply Hnonempty.
    apply Forall_app. split; [exact Hall|]. constructor; [exact Hcl|constructor].
Qed.

(** A first paragraph of 12 characters, for a target size of 10. *)
Lemma fallback_empty_chunk_witness :
  ∃ rest,
    create_semantic_chunks small_summarizer
      (py "aaaaaaaaaaaa" ++ sep ++ py "bb") = [] :: rest
    ∧ Forall (fun chunk => chunk ≠ []) rest.
Proof.
  destruct (fallback_empty_chunk small_summarizer
              (py "aaaaaaaaaaaa" ++ sep ++ py "bb"))
    as (first & others & Hsplit & H); [reflexivity|].
  vm_compute in Hsplit. injection Hsplit as <- <-. exact H.
Defined.

(** X6: on the fallback path the text is kept in one chunk exactly when it
    is shorter than [chunk_size], and the chunk is then the text followed by
    the separator. *)
Theorem fallback_single_chunk (self : PDFSummarizer) (text : str) :
  reasonable (detect_section_boundaries text) = false →
  (length (create_semantic_chunks self text) = 1
   ↔ (len text < chunk_size self)%Z)
  ∧ ((len text < chunk_size self)%Z →
     create_semantic_chunks self text = [text ++ sep]).
Proof.
  intros Hpath. rewrite create_fallback_path by exact Hpath.
  pose proof (split_sep_not_nil text) as Hne.
  pose proof (terminated_split_sep text) as Hterm.
  assert (Hsmall : (len text < chunk_size self)%Z →
            fallback_chunks (chunk_size self) text = [text ++ sep]).
  { intros Hlen. unfold fallback_chunks.
    rewrite fallback_loop_all_fit; [|exact Hne|].
    - rewrite Hterm. cbn [app].
      rewrite (truthy_closed (text ++ sep)) by (exists text; reflexivity).
      reflexivity.
    - rewrite Hterm, len_app, len_sep. change (len []) with 0%Z. lia. }
  split; [|exact Hsmall]. split; [|intros Hlen; rewrite Hsmall by exact Hlen;
                                   reflexivity].
  unfold fallback_chunks.
  destruct (fallback_loop (chunk_size self) (split_sep text) [] [])
    as [fc cur] eqn:E.
  destruct (fallback_loop_spec (chunk_size self) (split_sep text) _ _ _ _ _
              (fun _ H => H) (or_introl eq_refl) E)
    as (subs & -> & _ & _ & _ & Hcl).
  rewrite (truthy_closed cur (Hcl Hne)). rewrite length_app. simpl.
  intros Hone. destruct subs; [|simpl in Hone; lia].
  apply fallback_loop_none_appended in E; [|exact Hne].
  rewrite Hterm, len_app, len_sep in E. change (len []) with 0%Z in E. lia.
Qed.

(** Two paragraphs of four characters: ten characters with the separator,
    which is not less than the target size of 10, hence two chunks. *)
Lemma fallback_single_chunk_witness :
  length (create_semantic_chunks small_summarizer
            (py "aaaa" ++ sep ++ py "bbbb")) ≠ 1
  ∧ create_semantic_chunks small_summarizer (py "aaaa" ++ sep ++ py "bbb")
    = [py "aaaa" ++ sep ++ py "bbb" ++ sep].
Proof.
  split.
  - intros Hone.
    apply (fallback_single_chunk small_summarizer
             (py "aaaa" ++ sep ++ py "bbbb")) in Hone; [|reflexivity].
    vm_compute in Hone. discriminate.
  - apply (fallback_single_chunk small_summarizer
             (py "aaaa" ++ sep ++ py "bbb")); reflexivity.
Defined.

Section Groups.

Variable cs : Z.

Lemma terminated_app (g1 g2 : list str) :
  terminated (g1 ++ g2) = terminated g1 ++ terminated g2.
Proof. unfold terminated. rewrite map_app, concat_app. reflexivity. Qed.

Lemma terminated_one (para : str) : terminated [para] = para ++ sep.
Proof. unfold terminated. simpl. apply app_nil_r. Qed.

Lemma terminated_snoc (g : list str) (para : str) :
  terminated g ++ para ++ sep = terminated (g ++ [para]).
Proof. rewrite terminated_app, terminated_one. reflexivity. Qed.

Lemma truthy_terminated (g : list str) :
  truthy (terminated g) = match g with [] => false | _ :: _ => true end.
Proof.
  destruct g as [|para g]; [reflexivity|].
  unfold terminated. cbn [map concat]. destruct para; reflexivity.
Qed.

Lemma maximal_one (g : list str) : maximal cs [g].
Proof. intros [|i] group para others _ H; discriminate. Qed.

Lemma maximal_cons (g : list str) (para : str) (more : list str)
    (groups : list (list str)) :
  (cs ≤ len (terminated g) + len para)%Z →
  maximal cs ((para :: more) :: groups) →
  maximal cs (g :: (para :: more) :: groups).
Proof.
  intros Hfull Hmax [|i] group p others Hi Hnext.
  - injection Hi as <-. injection Hnext as <- <-. exact Hfull.
  - exact (Hmax i group p others Hi Hnext).
Qed.

Lemma grouping_done (g0 : list str) : grouping cs g0 [] [] g0.
Proof.
  split; [apply app_nil_r|]. split; [|apply maximal_one].
  exists g0, [], []. rewrite app_nil_r. split; [reflexivity|].
  split; [reflexivity|constructor].
Qed.

Lemma grouping_fit (g0 : list str) (para : str) (rest : list str)
    (groups : list (list str)) (last : list str) :
  grouping cs (g0 ++ [para]) rest groups last →
  grouping cs g0 (para :: rest) groups last.
Proof.
  intros (Hcat & (first & others & more & Heq & -> & Hne) & Hmax).
  split; [rewrite <- Hcat, <- app_assoc; reflexivity|].
  split; [|exact Hmax].
  exists ((g0 ++ [para]) ++ more), others, (para :: more).
  split; [exact Heq|]. split; [rewrite <- app_assoc; reflexivity|exact Hne].
Qed.

Lemma grouping_restart (g0 : list str) (para : str) (rest : list str)
    (groups : list (list str)) (last : list str) :
  (cs ≤ len (terminated g0) + len para)%Z →
  grouping cs [para] rest groups last →
  grouping cs g0 (para :: rest) (g0 :: groups) last.
Proof.
  intros Hfull (Hcat & (first & others & more & Heq & -> & Hne) & Hmax).
  split; [cbn [concat]; rewrite <- app_assoc, <- Hcat; reflexivity|].
  split.
  - exists g0, (([para] ++ more) :: others), [].
    rewrite app_nil_r. split; [cbn [app]; f_equal; exact Heq|].
    split; [reflexivity|]. constructor; [discriminate|exact Hne].
  - cbn [app]. rewrite Heq in Hmax |- *. apply maximal_cons; assumption.
Qed.

Lemma not_fits_full (current_chunk para : str) :
  fits cs current_chunk para = false →
  (cs ≤ len current_chunk + len para)%Z.
Proof. unfold fits. intros H%Z.ltb_ge. exact H. Qed.

Lemma fallback_loop_groups (ps : list str) :
  ∀ chunks g0 chunks' current_chunk',
    fallback_loop cs ps chunks (terminated g0) = (chunks', current_chunk') →
    ∃ groups last,
      chunks' = chunks ++ map terminated groups
      ∧ current_chunk' = terminated last
      ∧ grouping cs g0 ps groups last.
Proof.
  induction ps as [|para rest IH]; intros fc g0 fc' cur' Hrun;
    cbn [fallback_loop] in Hrun.
  - injection Hrun as <- <-. exists [], g0. rewrite app_nil_r.
    split; [reflexivity|]. split; [reflexivity|apply grouping_done].
  - destruct (fits cs (terminated g0) para) eqn:Hfit.
    + rewrite terminated_snoc in Hrun.
      destruct (IH _ _ _ _ Hrun) as (groups & last & -> & -> & Hg).
      exists groups, last. split; [reflexivity|]. split; [reflexivity|].
      apply grouping_fit, Hg.
    + rewrite <- terminated_one in Hrun.
      destruct (IH _ _ _ _ Hrun) as (groups & last & -> & -> & Hg).
      exists (g0 :: groups), last.
      split; [rewrite <- app_assoc; reflexivity|]. split; [reflexivity|].
      apply grouping_restart; [apply not_fits_full, Hfit|exact Hg].
Qed.

Lemma resplit_loop_groups (ps : list str) :
  ∀ final_chunks g0 final_chunks' current_chunk',
    resplit_loop cs ps final_chunks (terminated g0)
      = (final_chunks', current_chunk') →
    ∃ groups last,
      final_chunks' = final_chunks ++ map terminated groups
      ∧ current_chunk' = terminated last
      ∧ Forall (fun g => g ≠ []) groups
      ∧ grouping cs g0 ps groups last.
Proof.
  induction ps as [|para rest IH]; intros fc g0 fc' cur' Hrun;
    cbn [resplit_loop] in Hrun.
  - injection Hrun as <- <-. exists [], g0. rewrite app_nil_r.
    split; [reflexivity|]. split; [reflexivity|].
    split; [constructor|apply grouping_done].
  - destruct (fits cs (terminated g0) para) eqn:Hfit.
    + rewrite terminated_snoc in Hrun.
      destruct (IH _ _ _ _ Hrun) as (groups & last & -> & -> & Hne & Hg).
      exists groups, last. split; [reflexivity|]. split; [reflexivity|].
      split; [exact Hne|apply grouping_fit, Hg].
    + rewrite <- terminated_one, truthy_terminated in Hrun.
      destruct (IH _ _ _ _ Hrun) as (groups & last & -> & -> & Hne & Hg).
      destruct g0 as [|para0 g0].
      * exists groups, last. split; [reflexivity|]. split; [reflexivity|].
        split; [exact Hne|]. apply (grouping_fit [] para rest), Hg.
      * exists ((para0 :: g0) :: groups), last.
        split; [rewrite <- app_assoc; reflexivity|]. split; [reflexivity|].
        split; [constructor; [discriminate|exact Hne]|].
        apply grouping_restart; [apply not_fits_full, Hfit|exact Hg].
Qed.

End Groups.

Section Sections.

Lemma length_concat_resplit (cs : Z) (chunks : list str) :
  length chunks ≤ length (concat (map (resplit cs []) chunks)).
Proof.
  induction chunks as [|chunk rest IH]; [simpl; lia|].
  cbn [map concat]. rewrite length_app.
  pose proof (resplit_not_nil cs chunk) as Hne.
  destruct (resplit cs [] chunk); [contradiction|]. simpl in *. lia.
Qed.

Lemma concat_resplit_small (cs : Z) (chunks : list str) :
  (∀ chunk, chunk ∈ chunks → too_big cs chunk = false) →
  concat (map (resplit cs []) chunks) = chunks.
Proof.
  induction chunks as [|chunk rest IH]; intros Hsmall; [reflexivity|].
  cbn [map concat]. rewrite resplit_small by (apply Hsmall; left).
  rewrite IH; [reflexivity|]. intros c Hc. apply Hsmall. right. exact Hc.
Qed.

Lemma length_concat_groups (groups : list (list str)) :
  Forall (fun group => group ≠ []) groups →
  length groups ≤ length (concat groups).
Proof.
  induction 1 as [|g gs Hg _ IH]; [simpl; lia|].
  cbn [concat length]. rewrite length_app.
  destruct g; [contradiction|]. simpl. lia.
Qed.

Lemma head_drop (text : str) (n : nat) : head (drop n text) = text !! n.
Proof. rewrite head_lookup, lookup_drop, Nat.add_0_r. reflexivity. Qed.

Lemma head_slice (text : str) (a b : nat) :
  a < b → head (slice a b text) = text !! a.
Proof.
  intros Hab. unfold slice. rewrite head_lookup, lookup_take_lt by lia.
  rewrite lookup_drop, Nat.add_0_r. reflexivity.
Qed.

End Sections.

(** X7: on the boundary path there is at least one chunk for each boundary,
    hence two chunks or more; and when no section is too big, the chunks are
    the sections between the boundaries, unchanged: their concatenation is
    the text itself. *)
Theorem boundary_path_sections (self : PDFSummarizer) (text : str) :
  reasonable (detect_section_boundaries text) = true →
  2 ≤ length (detect_section_boundaries text)
  ∧ length (detect_section_boundaries text)
    ≤ length (create_semantic_chunks self text)
  ∧ ((∀ chunk,
        chunk ∈ boundary_chunks text (detect_section_boundaries text) →
        too_big (chunk_size self) chunk = false) →
     create_semantic_chunks self text
       = boundary_chunks text (detect_section_boundaries text)
     ∧ concat (create_semantic_chunks self text) = text).
Proof.
  intros Hpath. rewrite create_boundary_path by exact Hpath.
  pose proof Hpath as Hrange. apply reasonable_iff in Hrange.
  split; [lia|]. split.
  - etransitivity; [|apply length_concat_resplit].
    rewrite length_boundary_chunks. lia.
  - intros Hsmall. rewrite concat_resplit_small by exact Hsmall.
    split; [reflexivity|apply concat_detected_chunks].
Qed.

(** A preamble and a section, both small for the default target size. *)
Lemma boundary_path_sections_witness :
  create_semantic_chunks (new_summarizer example_llm_api)
    (py "preamble" ++ nl :: py "Section 1: Scope of the policy")
  = [py "preamble"; nl :: py "Section 1: Scope of the policy"].
Proof.
  destruct (boundary_path_sections (new_summarizer example_llm_api)
              (py "preamble" ++ nl :: py "Section 1: Scope of the policy"))
    as (_ & _ & H); [reflexivity|].
  destruct H as [H _]; [|exact H].
  intros chunk Hin. apply list_elem_of_In in Hin. vm_compute in Hin.
  destruct Hin as [<-|[<-|[]]]; reflexivity.
Defined.

(** X8: every section after the first one starts with a line break, the one
    that precedes its header: the header is not at the start of its chunk. *)
Theorem sections_start_at_line_break (text : str) (i : nat) (chunk : str) :
  boundary_chunks text (detect_section_boundaries text) !! S i = Some chunk →
  head chunk = Some nl.
Proof.
  intros Hchunk.
  pose proof (detect_increasing text) as Hs.
  assert (Hlt : S i < length (detect_section_boundaries text)).
  { apply lookup_lt_Some in Hchunk.
    rewrite length_boundary_chunks in Hchunk. lia. }
  destruct (lookup_lt_is_Some_2 _ _ Hlt) as [b Hb].
  assert (Hnl : text !! b = Some nl).
  { apply boundary_offset_newline.
    - apply list_elem_of_lookup. exists (S i). exact Hb.
    - destruct (detect_head text) as [rest Heq]. rewrite Heq in Hs, Hb.
      apply StronglySorted_cons in Hs as [Hall _].
      rewrite Forall_forall in Hall. simpl in Hb.
      assert (0 < b) by (apply Hall, list_elem_of_lookup; eauto). lia. }
  destruct (decide (S i + 1 < length (detect_section_boundaries text)))
    as [Hnext|Hlast].
  - rewrite lookup_boundary_chunks in Hchunk by exact Hnext.
    injection Hchunk as <-.
    pose proof (increasing_lookup_total _ (S i) Hs Hnext) as Hinc.
    rewrite (list_lookup_total_correct _ _ _ Hb) in Hinc |- *.
    rewrite head_slice by exact Hinc. exact Hnl.
  - assert (S i = length (detect_section_boundaries text) - 1) as Hi by lia.
    rewrite Hi, lookup_boundary_chunks_last in Hchunk.
    injection Hchunk as <-.
    rewrite last_lookup_total, <- Hi, (list_lookup_total_correct _ _ _ Hb).
    unfold slice_from. rewrite head_drop. exact Hnl.
Qed.

(** The section of the header below starts with the line break before it. *)
Lemma sections_start_at_line_break_witness :
  head (nl :: py "Section 1: Scope of the policy") = Some nl.
Proof.
  apply (sections_start_at_line_break
           (py "preamble" ++ nl :: py "Section 1: Scope of the policy") 0).
  reflexivity.
Defined.

(** X9: on the fallback path the chunks are groups of whole, consecutive
    paragraphs of the text, each paragraph followed by the separator: no
    paragraph is split, dropped, repeated or moved.  Only the first group
    may be empty, so there is at most one chunk more than paragraphs; and the
    packing is greedy: a chunk is followed by another only when the first
    paragraph of the next one did not fit. *)
Theorem fallback_packs_paragraphs (self : PDFSummarizer) (text : str) :
  reasonable (detect_section_boundaries text) = false →
  ∃ groups,
    concat groups = split_sep text
    ∧ create_semantic_chunks self text = map terminated groups
    ∧ Forall (fun group => group ≠ []) (tail groups)
    ∧ length (create_semantic_chunks self text) ≤ S (length (split_sep text))
    ∧ ∀ i group para others,
        groups !! i = Some group →
        groups !! S i = Some (para :: others) →
        (chunk_size self ≤ len (terminated group) + len para)%Z.
Proof.
  intros Hpath. rewrite create_fallback_path by exact Hpath.
  unfold fallback_chunks.
  destruct (fallback_loop (chunk_size self) (split_sep text) [] [])
    as [fc cur] eqn:E.
  pose proof E as Hclosed.
  apply (fallback_loop_spec (chunk_size self) (split_sep text)) in Hclosed
    as (_ & _ & _ & _ & _ & Hcl);
    [|intros p Hp; exact Hp|left; reflexivity].
  specialize (Hcl (split_sep_not_nil text)).
  rewrite (truthy_closed cur Hcl).
  apply (fallback_loop_groups (chunk_size self) (split_sep text) [] []) in E
    as (groups & last & -> & -> & Hcat & Hfirst & Hmax).
  exists (groups ++ [last]).
  replace (([] ++ map terminated groups) ++ [terminated last])
    with (map terminated (groups ++ [last])) by (rewrite map_app; reflexivity).
  destruct Hfirst as (first & others & more & Heq & _ & Hne).
  assert (Htail : Forall (fun group : list str => group ≠ [])
                    (tail (groups ++ [last])))
    by (rewrite Heq; exact Hne).
  assert (Hparas : concat (groups ++ [last]) = split_sep text)
    by (rewrite concat_app; simpl; rewrite app_nil_r; symmetry; exact Hcat).
  split; [exact Hparas|]. split; [reflexivity|].
  split; [exact Htail|]. split; [|exact Hmax].
  rewrite length_map, <- Hparas.
  rewrite Heq in Htail |- *. simpl in Htail. cbn [length concat].
  rewrite length_app.
  pose proof (length_concat_groups others Htail). lia.
Qed.

(** Three paragraphs packed in two chunks for a target size of 10. *)
Lemma fallback_packs_paragraphs_witness :
  ∃ groups,
    concat groups = [py "aaaa"; py "bb"; py "cccccc"]
    ∧ create_semantic_chunks small_summarizer
        (py "aaaa" ++ sep ++ py "bb" ++ sep ++ py "cccccc")
      = map terminated groups.
Proof.
  destruct (fallback_packs_paragraphs small_summarizer
              (py "aaaa" ++ sep ++ py "bb" ++ sep ++ py "cccccc"))
    as (groups & Hcat & Hchunks & _); [reflexivity|].
  exists groups. split; [exact Hcat|exact Hchunks].
Defined.

(** X10: the sub-chunks of a section that is too big are groups of whole,
    consecutive paragraphs of the section, each paragraph followed by the
    separator; no group is empty, so there are at most as many sub-chunks as
    paragraphs, and the packing is greedy: a sub-chunk is followed by another
    only when the first paragraph of the next one did not fit. *)
Theorem resplit_packs_paragraphs (cs : Z) (chunk : str) :
  too_big cs chunk = true →
  ∃ groups,
    concat groups = split_sep chunk
    ∧ resplit cs [] chunk = map terminated groups
    ∧ Forall (fun group => group ≠ []) groups
    ∧ length (resplit cs [] chunk) ≤ length (split_sep chunk)
    ∧ ∀ i group para others,
        groups !! i = Some group →
        groups !! S i = Some (para :: others) →
        (cs ≤ len (terminated group) + len para)%Z.
Proof.
  intros Hbig. unfold resplit. rewrite Hbig.
  destruct (resplit_loop cs (split_sep chunk) [] []) as [fc cur] eqn:E.
  pose proof E as Hclosed.
  apply (resplit_loop_spec cs (split_sep chunk)) in Hclosed
    as (_ & _ & _ & _ & _ & Hcl);
    [|intros p Hp; exact Hp|left; reflexivity].
  specialize (Hcl (split_sep_not_nil chunk)).
  rewrite (truthy_closed cur Hcl).
  apply (resplit_loop_groups cs (split_sep chunk) [] []) in E
    as (groups & last & -> & -> & Hne & Hcat & _ & Hmax).
  exists (groups ++ [last]).
  replace (([] ++ map terminated groups) ++ [terminated last])
    with (map terminated (groups ++ [last])) by (rewrite map_app; reflexivity).
  assert (Hparas : concat (groups ++ [last]) = split_sep chunk)
    by (rewrite concat_app; simpl; rewrite app_nil_r; symmetry; exact Hcat).
  assert (Hall : Forall (fun group : list str => group ≠ []) (groups ++ [last])).
  { apply Forall_app. split; [exact Hne|]. constructor; [|constructor].
    intros ->. exact (closed_not_nil _ Hcl eq_refl). }
  split; [exact Hparas|]. split; [reflexivity|]. split; [exact Hall|].
  split; [|exact Hmax].
  rewrite length_map, <- Hparas. apply length_concat_groups, Hall.
Qed.

(** A section of two paragraphs of 9 characters, for a target size of 10. *)
Lemma resplit_packs_paragraphs_witness :
  ∃ groups,
    concat groups = [py "aaaaaaaaa"; py "bbbbbbbbb"]
    ∧ resplit 10 [] (py "aaaaaaaaa" ++ sep ++ py "bbbbbbbbb")
      = map terminated groups.
Proof.
  destruct (resplit_packs_paragraphs 10
              (py "aaaaaaaaa" ++ sep ++ py "bbbbbbbbb"))
    as (groups & Hcat & Hsubs & _); [reflexivity|].
  exists groups. split; [exact Hcat|exact Hsubs].
Defined.

(** * Properties of the text extraction *)

Section Extraction.

Lemma pages_loop_acc (pages : list str) :
  ∀ i text_with_page,
    pages_loop i pages text_with_page
      = text_with_page ++ pages_loop i pages [].
Proof.
  induction pages as [|page_text rest IH]; intros i acc; cbn [pages_loop].
  - rewrite app_nil_r. reflexivity.
  - rewrite IH. rewrite (IH _ (if truthy (strip page_text) then _ else _)).
    destruct (truthy (strip page_text)); [|reflexivity].
    rewrite <- app_assoc. reflexivity.
Qed.

Lemma pages_loop_cons (i : nat) (page_text : str) (rest : list str) :
  pages_loop i (page_text :: rest) []
    = (if truthy (strip page_text) then [page_label i page_text] else [])
      ++ pages_loop (S i) rest [].
Proof.
  cbn [pages_loop]. rewrite pages_loop_acc.
  destruct (truthy (strip page_text)); reflexivity.
Qed.

Lemma truthy_false (s : str) : truthy s = false ↔ s = [].
Proof. destruct s; split; intros H; (reflexivity || discriminate). Qed.

(** The labelled pages are the pages that are not blank, each under the
    number of its position in the file. *)
Lemma pages_loop_elem (pages : list str) :
  ∀ i x,
    x ∈ pages_loop i pages [] ↔
      ∃ j page_text,
        pages !! j = Some page_text ∧ strip page_text ≠ []
        ∧ x = page_label (i + j) page_text.
Proof.
  induction pages as [|page_text rest IH]; intros i x.
  - split; [intros H; destruct (not_elem_of_nil _ H)|].
    intros (j & p & Hj & _). discriminate.
  - rewrite pages_loop_cons, elem_of_app, IH. split.
    + intros [Hx|(j & p & Hj & Hp & ->)].
      * destruct (truthy (strip page_text)) eqn:E;
          [|destruct (not_elem_of_nil _ Hx)].
        apply list_elem_of_singleton in Hx as ->.
        exists 0, page_text. rewrite Nat.add_0_r.
        split; [reflexivity|]. split; [|reflexivity].
        intros Hnil. rewrite Hnil in E. discriminate.
      * exists (S j), p. split; [exact Hj|]. split; [exact Hp|].
        f_equal. lia.
    + intros ([|j] & p & Hj & Hp & ->).
      * left. injection Hj as ->. rewrite Nat.add_0_r.
        destruct (truthy (strip p)) eqn:E; [left|].
        apply truthy_false in E. contradiction.
      * right. exists j, p. split; [exact Hj|]. split; [exact Hp|].
        f_equal. lia.
Qed.



(** Every element of a joined list is a part of the result. *)
Lemma join_lookup (sp : str) (l : list str) :
  ∀ i x, l !! i = Some x →
    ∃ before after, join sp l = before ++ x ++ after.
Proof.
  induction l as [|y l IH]; intros i x Hi; [discriminate|].
  destruct i as [|i].
  - injection Hi as ->. destruct l as [|z l].
    + exists [], []. cbn [join]. rewrite app_nil_r. reflexivity.
    + exists [], (sp ++ join sp (z :: l)). reflexivity.
  - destruct l as [|z l]; [discriminate|].
    destruct (IH i x Hi) as (before & after & Heq).
    exists (y ++ sp ++ before), after.
    change (join sp (y :: z :: l)) with (y ++ sp ++ join sp (z :: l)).
    rewrite Heq, <- !app_assoc. reflexivity.
Qed.


(** Paragraphs do not span a separator that follows a piece which does not
    end with a line break. *)
Lemma split_sep_app (piece rest : str) :
  last piece ≠ Some nl →
  split_sep (piece ++ sep ++ rest) = split_sep piece ++ split_sep rest.
Proof.
  assert (H : ∀ n (piece : str), length piece ≤ n → last piece ≠ Some nl →
            split_sep (piece ++ sep ++ rest)
              = split_sep piece ++ split_sep rest);
    [|exact (H (length piece) piece (le_n _))].
  induction n as [|n IH]; intros p Hn Hlast.
  - destruct p; [reflexivity|simpl in Hn; lia].
  - destruct p as [|c [|c' r]].
    + reflexivity.
    + change (([c] ++ sep ++ rest)) with (c :: nl :: nl :: rest).
      rewrite split_sep_step.
      destruct (Ascii.eqb c nl) eqn:E.
      { apply Ascii.eqb_eq in E. subst c. contradiction Hlast. reflexivity. }
      cbn [andb]. change (split_sep (nl :: nl :: rest)) with ([] :: split_sep rest).
      reflexivity.
    + change ((c :: c' :: r) ++ sep ++ rest)
        with (c :: c' :: (r ++ sep ++ rest)).
      rewrite !split_sep_step.
      destruct (Ascii.eqb c nl && Ascii.eqb c' nl)%bool eqn:E.
      * apply andb_prop in E as [E1 E2].
        apply Ascii.eqb_eq in E1, E2. subst c c'.
        rewrite IH; [reflexivity|simpl in Hn; lia|].
        destruct r as [|c'' r]; [contradiction Hlast; reflexivity|exact Hlast].
      * change (c' :: r ++ sep ++ rest) with ((c' :: r) ++ sep ++ rest).
        rewrite IH; [|simpl in Hn |- *; lia|exact Hlast].
        pose proof (split_sep_not_nil (c' :: r)) as Hne.
        destruct (split_sep (c' :: r)) as [|q qs]; [contradiction|].
        reflexivity.
Qed.

(** The paragraphs of joined pieces are the paragraphs of the pieces. *)
Lemma split_sep_join (pieces : list str) :
  pieces ≠ [] →
  Forall (fun piece => last piece ≠ Some nl) pieces →
  split_sep (join sep pieces) = concat (map split_sep pieces).
Proof.
  induction pieces as [|piece rest IH]; intros Hne Hall; [contradiction|].
  apply Forall_cons in Hall as [Hpiece Hall].
  destruct rest as [|piece' rest].
  - cbn [join map concat]. rewrite app_nil_r. reflexivity.
  - change (join sep (piece :: piece' :: rest))
      with (piece ++ sep ++ join sep (piece' :: rest)).
    rewrite split_sep_app by exact Hpiece.
    rewrite IH by (discriminate || exact Hall). reflexivity.
Qed.

Lemma last_page_label (i : nat) (page_text : str) :
  page_text ≠ [] → last (page_label i page_text) = last page_text.
Proof.
  intros Hne. unfold page_label. rewrite !app_assoc.
  destruct page_text as [|c s]; [contradiction|].
  generalize ((py "[Page " ++ format_val (PInt (Z.of_nat (i + 1)))) ++ py "] ").
  intros l. rewrite !last_lookup, length_app.
  replace (pred (length l + length (c :: s)))
    with (length l + pred (length (c :: s))) by (simpl; lia).
  rewrite lookup_app_r by lia. f_equal. lia.
Qed.

Lemma strip_nil : strip [] = [].
Proof. reflexivity. Qed.

End Extraction.





(** X14: when no page ends with a line break, every paragraph of the
    extracted text is a paragraph of one labelled page: the pages are joined
    with the paragraph separator, so that no paragraph, hence no packing of
    the Chunker, glues the end of a page to the start of the next. *)
Theorem extracted_paragraphs (reader : PdfReader) (para : str) :
  Forall (fun page_text => last page_text ≠ Some nl) (reader_pages reader) →
  (extract_text_and_metadata reader).1 ≠ [] →
  para ∈ split_sep (extract_text_and_metadata reader).1 →
  ∃ i page_text,
    reader_pages reader !! i = Some page_text
    ∧ strip page_text ≠ []
    ∧ para ∈ split_sep (py "[Page " ++ format_val (PInt (Z.of_nat (i + 1)))
                        ++ py "] " ++ page_text).
Proof.
  unfold extract_text_and_metadata. cbn [fst]. intros Hlast Htext Hpara.
  assert (Hne : pages_loop 0 (reader_pages reader) [] ≠ [])
    by (intros Hnil; rewrite Hnil in Htext; contradiction).
  rewrite split_sep_join in Hpara; [|exact Hne|].
  - apply list_elem_of_In, in_concat in Hpara as (l & Hl & Hpara).
    apply in_map_iff in Hl as (x & <- & Hx).
    apply list_elem_of_In, pages_loop_elem in Hx as (j & p & Hj & Hp & ->).
    exists j, p. split; [exact Hj|]. split; [exact Hp|].
    apply list_elem_of_In. exact Hpara.
  - apply Forall_forall. intros x Hx.
    apply pages_loop_elem in Hx as (j & p & Hj & Hp & ->).
    rewrite last_page_label by (intros ->; apply Hp, strip_nil).
    rewrite Forall_forall in Hlast. apply Hlast.
    apply list_elem_of_lookup. exists j. exact Hj.
Qed.

(** Two pages of one line each: the paragraph of the second page. *)
Lemma extracted_paragraphs_witness :
  ∃ i page_text,
    [py "Scope"; py "Terms"] !! i = Some page_text
    ∧ strip page_text ≠ []
    ∧ py "[Page 2] Terms"
        ∈ split_sep (py "[Page " ++ format_val (PInt (Z.of_nat (i + 1)))
                     ++ py "] " ++ page_text).
Proof.
  apply (extracted_paragraphs
           {| reader_metadata := ∅; reader_pages := [py "Scope"; py "Terms"] |}
           (py "[Page 2] Terms")).
  - repeat constructor; discriminate.
  - discriminate.
  - apply list_elem_of_In. vm_compute. right. left. reflexivity.
Defined.



(** * Properties of the prompts *)

Section Prompts.

(** The combining prompt is a fixed frame around the joined summaries. *)
Lemma reduce_prompt_frame (meta : gmap string pyval) (is_financial : bool) :
  ∃ before after, ∀ summaries,
    reduce_prompt summaries meta is_financial
      = before ++ all_summaries summaries ++ after.
Proof.
  destruct is_financial; cbn [reduce_prompt];
    [exists (line "You are creating a final comprehensive summary of a financial document."
             ++ line "Below are summaries of each section of the document."
             ++ line "" ++ document_header meta ++ line "")
    |exists (line "You are creating a final comprehensive summary of a document."
             ++ line "Below are summaries of each section of the document."
             ++ line "" ++ document_header meta ++ line "")];
    eexists; intros summaries; rewrite <- !app_assoc; reflexivity.
Qed.

(** The joined summaries quote every summary under its number. *)
Lemma all_summaries_quotes (summaries : list str) (i : nat) (summary : str) :
  summaries !! i = Some summary →
  ∃ before after,
    all_summaries summaries
      = before ++ (py "Section " ++ format_val (PInt (Z.of_nat (i + 1)))
                   ++ line " Summary:" ++ summary) ++ after.
Proof.
  intros Hi. unfold all_summaries.
  apply (join_lookup sep _ i).
  rewrite list_lookup_imap, Hi. reflexivity.
Qed.

Lemma reduce_prompt_quotes (summaries : list str)
    (meta : gmap string pyval) (is_financial : bool)
    (i : nat) (summary : str) :
  summaries !! i = Some summary →
  ∃ before after,
    reduce_prompt summaries meta is_financial
    = before ++ py "Section " ++ format_val (PInt (Z.of_nat (i + 1)))
      ++ py " Summary:" ++ [nl] ++ summary ++ after.
Proof.
  intros Hi.
  destruct (reduce_prompt_frame meta is_financial) as (pre & post & Hframe).
  destruct (all_summaries_quotes summaries i summary Hi)
    as (before & after & Hquote).
  exists (pre ++ before), (after ++ post).
  rewrite Hframe, Hquote. unfold line. rewrite <- !app_assoc. reflexivity.
Qed.

(** The first 50 characters of a section prompt belong to the template. *)
Lemma take_50_chunk_prompt (chunk : str) (meta : gmap string pyval)
    (is_financial : bool) :
  take 50 (chunk_prompt chunk meta is_financial)
    = if is_financial
      then py "Summarize the following section of a financial doc"
      else py "Summarize the following section of a document." ++ nl :: py "Doc".
Proof. destruct is_financial; reflexivity. Qed.

Lemma take_50_reduce_prompt (summaries : list str)
    (meta : gmap string pyval) (is_financial : bool) :
  take 50 (reduce_prompt summaries meta is_financial)
    = py "You are creating a final comprehensive summary of ".
Proof. destruct is_financial; reflexivity. Qed.

End Prompts.

(** X16: the prompt of the combining call quotes every section summary as
    it is, placeholders of errors included, under the heading
    ["Section i Summary:"] where [i] is the position of the chunk, counted
    from 1. *)
Theorem reduce_prompt_sections (summaries : list str)
    (meta : gmap string pyval) (is_financial : bool)
    (i : nat) (summary : str) :
  summaries !! i = Some summary →
  ∃ before after,
    reduce_prompt summaries meta is_financial
    = before ++ py "Section " ++ format_val (PInt (Z.of_nat (i + 1)))
      ++ py " Summary:" ++ [nl] ++ summary ++ after.
Proof. apply reduce_prompt_quotes. Qed.

(** The second of two summaries. *)
Lemma reduce_prompt_sections_witness :
  ∃ before after,
    reduce_prompt [py "first"; py "second"] ∅ false
    = before ++ py "Section " ++ py "2" ++ py " Summary:" ++ [nl]
      ++ py "second" ++ after.
Proof.
  apply (reduce_prompt_sections [py "first"; py "second"] ∅ false 1
           (py "second")).
  reflexivity.
Defined.

(** X17: when the summarisation of the chunk of index [k] raises [e], the
    failure reaches the Reducer: the capability is called for the final
    summary with a prompt that quotes, under the heading of the section
    [k + 1], the placeholder ["[Error summarizing this section: e]"]. *)
Theorem failed_section_reaches_reducer
    (self : PDFSummarizer) (completion : list nat) (text : str)
    (meta : gmap string pyval) (is_financial : bool)
    (k : nat) (failing : str) (e : exn) :
  (0 < max_workers self)%Z →
  completion_order (length (create_semantic_chunks self text)) completion →
  create_semantic_chunks self text !! k = Some failing →
  summarize_chunk self failing meta is_financial = Raised e →
  ∃ prompt before after,
    summarize_pdf self completion text meta is_financial
    = (final ← llm_api self prompt;
       mret {| metadata := meta;
               chunk_count := length (create_semantic_chunks self text);
               section_summaries :=
                 map (entry self meta is_financial)
                     (create_semantic_chunks self text);
               final_summary := final |})
    ∧ prompt
      = before ++ py "Section " ++ format_val (PInt (Z.of_nat (k + 1)))
        ++ py " Summary:" ++ [nl]
        ++ py "[Error summarizing this section: " ++ exn_str e ++ py "]"
        ++ after.
Proof.
  intros Hpool Hperm Hk Hraise.
  set (entries := map (entry self meta is_financial)
                      (create_semantic_chunks self text)).
  assert (Hentry : entries !! k = Some (error_placeholder e)).
  { unfold entries. change (map ?g ?l) with (g <$> l).
    rewrite list_lookup_fmap, Hk. cbn [fmap option_fmap option_map].
    unfold entry. rewrite Hraise. reflexivity. }
  destruct (reduce_prompt_quotes entries meta is_financial k _ Hentry)
    as (before & after & Hquote).
  exists (reduce_prompt entries meta is_financial), before, after.
  split.
  - rewrite summarize_pdf_unfold by assumption. fold entries.
    unfold summarize_summaries.
    destruct (llm_api self (reduce_prompt entries meta is_financial));
      reflexivity.
  - rewrite Hquote. unfold error_placeholder.
    rewrite <- !app_assoc. reflexivity.
Qed.

(** The capability fails on the first of two chunks. *)
Lemma failed_section_reaches_reducer_witness :
  let self := {| llm_api := flaky_api; chunk_size := 6; overlap := 200;
                 max_workers := 2 |} in
  ∃ prompt before after,
    summarize_pdf self [1; 0] (py "boom" ++ sep ++ py "fine") ∅ true
    = (final ← llm_api self prompt;
       mret {| metadata := ∅;
               chunk_count := 2;
               section_summaries :=
                 map (entry self ∅ true) [py "boom" ++ sep; py "fine" ++ sep];
               final_summary := final |})
    ∧ prompt
      = before ++ py "Section " ++ py "1" ++ py " Summary:" ++ [nl]
        ++ py "[Error summarizing this section: " ++ py "timeout" ++ py "]"
        ++ after.
Proof.
  intros self.
  apply (failed_section_reaches_reducer self [1; 0]
           (py "boom" ++ sep ++ py "fine") ∅ true 0 (py "boom" ++ sep)
           (Exception (py "timeout"))).
  - reflexivity.
  - apply Permutation_swap.
  - reflexivity.
  - reflexivity.
Defined.

(** X18: with the placeholder capability of the usage example, which quotes
    the first 50 characters of its prompt, [summarize_pdf] returns a record
    for every document, for a pool with a worker; and as these 50 characters
    belong to the fixed part of the templates, every section summary is the
    same text and the final summary is a fixed text, whatever the document
    says. *)
Theorem example_api_ignores_document
    (self : PDFSummarizer) (completion : list nat) (text : str)
    (meta : gmap string pyval) (is_financial : bool) :
  llm_api self = example_llm_api →
  (0 < max_workers self)%Z →
  completion_order (length (create_semantic_chunks self text)) completion →
  summarize_pdf self completion text meta is_financial
  = Returned
      {| metadata := meta;
         chunk_count := length (create_semantic_chunks self text);
         section_summaries :=
           replicate (length (create_semantic_chunks self text))
             (py "This is where the LLM response would be for: "
              ++ (if is_financial
                  then py "Summarize the following section of a financial doc"
                  else py "Summarize the following section of a document."
                       ++ nl :: py "Doc")
              ++ py "...");
         final_summary :=
           py "This is where the LLM response would be for: "
           ++ py "You are creating a final comprehensive summary of "
           ++ py "..." |}.
Proof.
  intros Hapi Hpool Hperm.
  rewrite summarize_pdf_unfold by assumption.
  assert (Hentries : ∀ chunks,
            map (entry self meta is_financial) chunks
            = replicate (length chunks)
                (py "This is where the LLM response would be for: "
                 ++ (if is_financial
                     then py "Summarize the following section of a financial doc"
                     else py "Summarize the following section of a document."
                          ++ nl :: py "Doc")
                 ++ py "...")).
  { induction chunks as [|chunk rest IH]; [reflexivity|].
    cbn [map length replicate]. rewrite IH. f_equal.
    unfold entry, summarize_chunk. rewrite Hapi. unfold example_llm_api.
    cbn [mbind outcome_bind mret outcome_ret entry_of].
    rewrite take_50_chunk_prompt. reflexivity. }
  rewrite Hentries. unfold summarize_summaries. rewrite Hapi.
  unfold example_llm_api. cbn [mbind outcome_bind mret outcome_ret].
  rewrite take_50_reduce_prompt. reflexivity.
Qed.

(** The usage example on a text of two paragraphs. *)
Lemma example_api_ignores_document_witness :
  ∃ section final,
    summarize_pdf small_summarizer [1; 0] (py "aaaa" ++ sep ++ py "bbbb") ∅
      true
    = Returned {| metadata := ∅; chunk_count := 2;
                  section_summaries := [section; section];
                  final_summary := final |}.
Proof.
  eexists. eexists.
  rewrite (example_api_ignores_document small_summarizer [1; 0]
             (py "aaaa" ++ sep ++ py "bbbb") ∅ true).
  - reflexivity.
  - reflexivity.
  - reflexivity.
  - apply Permutation_swap.
Defined.

(** X19: on the boundary path every chunk is either a section between two
    boundaries, kept as it is because its length is at most one and a half
    times [chunk_size], or a sub-chunk of a bigger section: this one ends
    with the separator and has at most [chunk_size + 1] characters, unless
    it is a single paragraph of the section, of [chunk_size] characters or
    more, followed by the separator. *)
Theorem boundary_chunk_sizes (self : PDFSummarizer) (text chunk : str) :
  reasonable (detect_section_boundaries text) = true →
  chunk ∈ create_semantic_chunks self text →
  (chunk ∈ boundary_chunks text (detect_section_boundaries text)
   ∧ (2 * len chunk ≤ 3 * chunk_size self)%Z)
  ∨ (closed chunk
     ∧ ((len chunk ≤ chunk_size self + 1)%Z
        ∨ ∃ section para,
            section ∈ boundary_chunks text (detect_section_boundaries text)
            ∧ para ∈ split_sep section
            ∧ chunk = para ++ sep
            ∧ (chunk_size self ≤ len para)%Z)).
Proof.
  intros Hpath Hin. rewrite create_boundary_path in Hin by exact Hpath.
  apply list_elem_of_In, in_concat in Hin as (subs & Hsubs & Hin).
  apply in_map_iff in Hsubs as (section & <- & Hsection).
  apply list_elem_of_In in Hsection, Hin.
  destruct (too_big (chunk_size self) section) eqn:E.
  - right. destruct (resplit_big _ _ E) as (Hall & _).
    rewrite Forall_forall in Hall. destruct (Hall chunk Hin) as [Hcl Hpacked].
    split; [exact Hcl|].
    destruct Hpacked as [Hlen|(para & Hpara & Heq & Hlen)]; [left; exact Hlen|].
    right. exists section, para. auto.
  - left. rewrite resplit_small in Hin by exact E.
    apply list_elem_of_singleton in Hin as ->. split; [exact Hsection|].
    unfold too_big in E. apply Z.ltb_ge in E. exact E.
Qed.

(** A section of 13 characters is kept for a target size of 10. *)
Lemma boundary_chunk_sizes_witness :
  (nl :: py "Section 1: x"
     ∈ boundary_chunks
         (py "aaaaaaaaa" ++ sep ++ py "bbbbbbbbb" ++ nl :: py "Section 1: x")
         (detect_section_boundaries
            (py "aaaaaaaaa" ++ sep ++ py "bbbbbbbbb" ++ nl :: py "Section 1: x"))
   ∧ (2 * len (nl :: py "Section 1: x") ≤ 3 * 10)%Z)
  ∨ (closed (nl :: py "Section 1: x")
     ∧ ((len (nl :: py "Section 1: x") ≤ 10 + 1)%Z
        ∨ ∃ section para,
            section ∈ boundary_chunks
              (py "aaaaaaaaa" ++ sep ++ py "bbbbbbbbb" ++ nl :: py "Section 1: x")
              (detect_section_boundaries
                 (py "aaaaaaaaa" ++ sep ++ py "bbbbbbbbb"
                  ++ nl :: py "Section 1: x"))
            ∧ para ∈ split_sep section
            ∧ nl :: py "Section 1: x" = para ++ sep
            ∧ (10 ≤ len para)%Z)).
Proof.
  apply (boundary_chunk_sizes small_summarizer
           (py "aaaaaaaaa" ++ sep ++ py "bbbbbbbbb" ++ nl :: py "Section 1: x")
           (nl :: py "Section 1: x")).
  - reflexivity.
  - apply list_elem_of_In. vm_compute. right. right. left. reflexivity.
Defined.
